(** * Fleet traffic negotiation: lease table, agent state machine, orchestrator

    A shallow embedding of [controllers/traffic_manager.py],
    [src/models/robot.py] and [controllers/fleet_manager.py].

    Conventions of the embedding:
    - Python [int] identifiers (robot ids, vertex ids) are [Z].
    - Clock readings ([time.time()]), lease durations and coordinates are
      Python floats in the source; they are modelled as exact rationals [Q],
      compared with the usual order.  A clock reading is an explicit argument
      of the function that reads the clock.
    - The progress of a robot along an edge is a running sum of floats, and
      rounding decides whether the sum ever reaches 1.  Module [Robot64]
      embeds [Robot] over IEEE 754 binary64 floats, and the progress of a
      moving robot is stated there.  Module [Robot] is the same code over
      [Q]; it serves the orchestrator and the properties of the state
      machine that do not depend on rounding.
    - A [dict] whose iteration order is irrelevant is a [gmap]; the robots
      dictionary, which [update_robots] iterates, is an insertion-ordered
      association list.
    - A raised exception is an explicit outcome. *)

From Stdlib Require Import ZArith QArith Qminmax Lqa List.
From Stdlib Require Import Floats.PrimFloat.
From stdpp Require Import gmap list fin_maps.

Local Open Scope Z_scope.

(** ** Rational comparisons used by the source *)

(** [x < y] on floats, as a boolean. *)
Definition Qltb (x y : Q) : bool := negb (Qle_bool y x).

(** ** The traffic coordinator ([controllers/traffic_manager.py]) *)

Module TrafficManager.

(** A lock is the pair [(robot_id, timestamp)]. *)
Abbreviation lock := (Z * Q)%type.

(** [TrafficManager.__init__]: the three tables.  [lock_duration] is set once
    to [5.0] and never assigned again. *)
Record t : Type := mk {
  vertex_locks : gmap Z lock;
  edge_locks : gmap (Z * Z) lock;
  waiting_queues : gmap Z (list Z)
}.

Definition __init__ : t := mk ∅ ∅ ∅.

Definition lock_duration : Q := 5.

(** The test of lines 46-48 and 57-59: the table entry [l] (if any) belongs to
    another robot and [current_time - lock_time < lock_duration].  Returns the
    blocking robot. *)
Definition blocking (robot_id : Z) (current_time : Q) (l : option lock)
  : option Z :=
  match l with
  | Some (lock_robot, lock_time) =>
      if negb (lock_robot =? robot_id)
         && Qltb (current_time - lock_time) lock_duration
      then Some lock_robot else None
  | None => None
  end.

(** Lines 50-51 and 60-61: [waiting_queues] is a [defaultdict(list)], so
    reading [waiting_queues[v]] creates an empty queue when [v] has none; the
    robot is appended unless it is already in the queue. *)
Definition enqueue (robot_id current_vertex : Z) (wq : gmap Z (list Z))
  : gmap Z (list Z) :=
  match wq !! current_vertex with
  | Some q => if bool_decide (robot_id ∈ q) then wq
              else <[current_vertex := q ++ [robot_id]]> wq
  | None => <[current_vertex := [robot_id]]> wq
  end.

(** The first loop of [request_path] (lines 41-63), over the consecutive
    pairs [(path[i], path[i+1])]: the vertex at which the scan stops and the
    blocking robot, or [None] when the loop runs to its end. *)
Fixpoint scan (tm : t) (robot_id : Z) (current_time : Q) (path : list Z)
  : option (Z * Z) :=
  match path with
  | current_vertex :: ((next_vertex :: _) as rest) =>
      match blocking robot_id current_time
              (vertex_locks tm !! current_vertex) with
      | Some lock_robot => Some (current_vertex, lock_robot)
      | None =>
          match blocking robot_id current_time
                  (edge_locks tm !! (current_vertex, next_vertex)) with
          | Some lock_robot => Some (current_vertex, lock_robot)
          | None => scan tm robot_id current_time rest
          end
      end
  | _ => None
  end.

(** The second loop (lines 66-70): stamp every vertex but the last and every
    edge with [(robot_id, current_time)]. *)
Fixpoint reserve (robot_id : Z) (current_time : Q) (path : list Z)
    (vl : gmap Z lock) (el : gmap (Z * Z) lock)
  : gmap Z lock * gmap (Z * Z) lock :=
  match path with
  | current_vertex :: ((next_vertex :: _) as rest) =>
      reserve robot_id current_time rest
        (<[current_vertex := (robot_id, current_time)]> vl)
        (<[(current_vertex, next_vertex) := (robot_id, current_time)]> el)
  | _ => (vl, el)
  end.

(** [request_path]; [current_time] is the single clock reading of line 38. *)
Definition request_path (tm : t) (robot_id : Z) (current_time : Q)
    (path : list Z) : t * (bool * option Z) :=
  match scan tm robot_id current_time path with
  | Some (current_vertex, lock_robot) =>
      (mk (vertex_locks tm) (edge_locks tm)
          (enqueue robot_id current_vertex (waiting_queues tm)),
       (false, Some lock_robot))
  | None =>
      let '(vl, el) := reserve robot_id current_time path
                         (vertex_locks tm) (edge_locks tm) in
      (mk vl el (waiting_queues tm), (true, None))
  end.

(** [is_path_clear] (lines 12-34): one iteration per consecutive pair
    [(path[i], path[i+1])], first the test of the vertex entry (lines 22-25),
    then the test of the edge entry (lines 28-32); [(True, None)] when the
    loop runs to its end.  [current_time] is the clock reading of line 14. *)
Fixpoint is_path_clear (tm : t) (robot_id : Z) (current_time : Q)
    (path : list Z) : bool * option Z :=
  match path with
  | current_vertex :: ((next_vertex :: _) as rest) =>
      let check_edge :=
        match edge_locks tm !! (current_vertex, next_vertex) with
        | Some (lock_robot, lock_time) =>
            if negb (lock_robot =? robot_id)
               && Qltb (current_time - lock_time) lock_duration
            then (false, Some lock_robot)
            else is_path_clear tm robot_id current_time rest
        | None => is_path_clear tm robot_id current_time rest
        end in
      match vertex_locks tm !! current_vertex with
      | Some (lock_robot, lock_time) =>
          if negb (lock_robot =? robot_id)
             && Qltb (current_time - lock_time) lock_duration
          then (false, Some lock_robot)
          else check_edge
      | None => check_edge
      end
  | _ => (true, None)
  end.

(** [release_path] (lines 74-96).  The result is [None] when the function
    falls off its end (line 91 false), and the copied queue otherwise. *)
Definition release_path (tm : t) (robot_id vertex_id : Z)
  : t * option (list Z) :=
  let vl :=
    match vertex_locks tm !! vertex_id with
    | Some (lock_robot, _) =>
        if lock_robot =? robot_id then delete vertex_id (vertex_locks tm)
        else vertex_locks tm
    | None => vertex_locks tm
    end in
  let el := filter (λ kv : (Z * Z) * lock, kv.2.1 ≠ robot_id) (edge_locks tm) in
  match waiting_queues tm !! vertex_id with
  | Some waiting_robots =>
      (mk vl el (<[vertex_id := []]> (waiting_queues tm)), Some waiting_robots)
  | None => (mk vl el (waiting_queues tm), None)
  end.

(** [get_waiting_robots]: [waiting_queues.get(vertex_id, [])]. *)
Definition get_waiting_robots (tm : t) (vertex_id : Z) : list Z :=
  default [] (waiting_queues tm !! vertex_id).

End TrafficManager.

(** ** The agent state machine ([src/models/robot.py]) *)

Module Robot.

Inductive RobotStatus : Type :=
  | IDLE | MOVING | WAITING | TASK_COMPLETE | BLOCKED.

#[global] Instance RobotStatus_eq_dec : EqDecision RobotStatus.
Proof. solve_decision. Defined.

(** The attributes of [Robot] that the controllers read or write.  The visual
    attributes ([color], [size]) and the counters that no method updates
    ([waiting_time], [task_start_time], [last_vertex]) are left out.
    [last_retry_time] is the attribute that [update_robots] creates on first
    use ([hasattr]); [None] is "attribute absent". *)
Record t : Type := mk {
  robot_id : Z;
  current_vertex : Z;
  target_vertex : option Z;
  status : RobotStatus;
  path : list Z;
  current_edge_index : nat;
  current_x : Q;
  current_y : Q;
  next_x : Q;
  next_y : Q;
  move_progress : Q;
  move_speed : Q;
  blocked_by : option Z;
  last_retry_time : option Q
}.

(** [Robot.__init__]. *)
Definition __init__ (robot_id spawn_vertex : Z) : t :=
  {| robot_id := robot_id; current_vertex := spawn_vertex;
     target_vertex := None; status := IDLE; path := [];
     current_edge_index := 0%nat;
     current_x := 0; current_y := 0; next_x := 0; next_y := 0;
     move_progress := 0; move_speed := 5 # 100;
     blocked_by := None; last_retry_time := None |}.

(** [start_task] (lines 46-57). *)
Definition start_task (target : Z) (path : list Z) (start_pos : Q * Q)
    (r : t) : t :=
  {| robot_id := robot_id r; current_vertex := current_vertex r;
     target_vertex := Some target; status := MOVING; path := path;
     current_edge_index := 0%nat;
     current_x := start_pos.1; current_y := start_pos.2;
     next_x := if (1 <? length path)%nat then start_pos.1 else next_x r;
     next_y := if (1 <? length path)%nat then start_pos.2 else next_y r;
     move_progress := 0; move_speed := move_speed r;
     blocked_by := blocked_by r; last_retry_time := last_retry_time r |}.

(** [set_blocked] (lines 59-63). *)
Definition set_blocked (blocking_robot_id : option Z) (r : t) : t :=
  {| robot_id := robot_id r; current_vertex := current_vertex r;
     target_vertex := target_vertex r; status := BLOCKED; path := path r;
     current_edge_index := current_edge_index r;
     current_x := current_x r; current_y := current_y r;
     next_x := next_x r; next_y := next_y r;
     move_progress := move_progress r; move_speed := move_speed r;
     blocked_by := blocking_robot_id; last_retry_time := last_retry_time r |}.

(** [set_waiting] (lines 65-68). *)
Definition set_waiting (r : t) : t :=
  {| robot_id := robot_id r; current_vertex := current_vertex r;
     target_vertex := target_vertex r; status := WAITING; path := path r;
     current_edge_index := current_edge_index r;
     current_x := current_x r; current_y := current_y r;
     next_x := next_x r; next_y := next_y r;
     move_progress := move_progress r; move_speed := move_speed r;
     blocked_by := blocked_by r; last_retry_time := last_retry_time r |}.

(** [_smooth_step] and [_lerp] (lines 110-119). *)
Definition _smooth_step (x : Q) : Q :=
  let x := Qmax 0 (Qmin 1 x) in (x * x * (3 - 2 * x))%Q.

Definition _lerp (start end_ t : Q) : Q :=
  let t := Qmax 0 (Qmin 1 t) in (start + (end_ - start) * t)%Q.

(** [update_position] (lines 70-108).  [get_vertex_pos] is the position
    lookup of the navigation graph, total on vertex ids.  The result is
    [None] when the source fails: the lookup is applied to an absent target
    (line 78), or a path index is out of range (lines 86-87, 102-103); neither
    happens for a robot that [start_task] put in motion. *)
Definition update_position (delta_time : Q) (get_vertex_pos : Z → Q * Q)
    (r : t) : option t :=
  if bool_decide (status r ≠ MOVING) || bool_decide (path r = []) then Some r
  else if (length (path r) - 1 <=? current_edge_index r)%nat then
    match target_vertex r with
    | Some target =>
        let final_pos := get_vertex_pos target in
        Some {| robot_id := robot_id r; current_vertex := target;
                target_vertex := target_vertex r; status := TASK_COMPLETE;
                path := path r; current_edge_index := current_edge_index r;
                current_x := final_pos.1; current_y := final_pos.2;
                next_x := next_x r; next_y := next_y r;
                move_progress := move_progress r; move_speed := move_speed r;
                blocked_by := blocked_by r;
                last_retry_time := last_retry_time r |}
    | None => None
    end
  else
    match path r !! current_edge_index r,
          path r !! S (current_edge_index r) with
    | Some current_vertex0, Some next_vertex =>
        let progress := (move_progress r + move_speed r * delta_time)%Q in
        let crossed := Qle_bool 1 progress in
        let index := if crossed then S (current_edge_index r)
                     else current_edge_index r in
        let ends :=
          if crossed && (index <? length (path r) - 1)%nat then
            match path r !! index, path r !! S index with
            | Some a, Some b => Some (get_vertex_pos a, get_vertex_pos b)
            | _, _ => None
            end
          else Some (get_vertex_pos current_vertex0, get_vertex_pos next_vertex)
        in
        match ends with
        | Some (current_pos, next_pos) =>
            let progress' := if crossed then 0%Q else progress in
            let s := _smooth_step progress' in
            Some {| robot_id := robot_id r;
                    current_vertex := if crossed then next_vertex
                                      else current_vertex r;
                    target_vertex := target_vertex r; status := status r;
                    path := path r; current_edge_index := index;
                    current_x := _lerp current_pos.1 next_pos.1 s;
                    current_y := _lerp current_pos.2 next_pos.2 s;
                    next_x := next_x r; next_y := next_y r;
                    move_progress := progress'; move_speed := move_speed r;
                    blocked_by := blocked_by r;
                    last_retry_time := last_retry_time r |}
        | None => None
        end
    | _, _ => None
    end.

End Robot.

(** ** The agent state machine in binary64 ([src/models/robot.py])

    The progress of a robot along an edge is a sum of floats, and whether
    the sum ever reaches [1.0] depends on rounding.  This module embeds
    [Robot] with its numbers as IEEE 754 binary64 floats, the floats of
    Python, with the operations of the processor ([+], [-], [*] round to
    nearest, ties to even). *)

Module Robot64.

(** The attributes of [Robot], as in [Robot.t]; the numeric ones are
    floats. *)
Record t : Type := mk {
  robot_id : Z;
  current_vertex : Z;
  target_vertex : option Z;
  status : Robot.RobotStatus;
  path : list Z;
  current_edge_index : nat;
  current_x : float;
  current_y : float;
  next_x : float;
  next_y : float;
  move_progress : float;
  move_speed : float;
  blocked_by : option Z;
  last_retry_time : option float
}.

(** The literal [0.05]: the double nearest to one twentieth. *)
Definition default_speed : float := 0x1.999999999999ap-5%float.

(** [Robot.__init__]. *)
Definition __init__ (robot_id spawn_vertex : Z) : t :=
  {| robot_id := robot_id; current_vertex := spawn_vertex;
     target_vertex := None; status := Robot.IDLE; path := [];
     current_edge_index := 0%nat;
     current_x := 0; current_y := 0; next_x := 0; next_y := 0;
     move_progress := 0; move_speed := default_speed;
     blocked_by := None; last_retry_time := None |}.

(** [start_task] (lines 46-57). *)
Definition start_task (target : Z) (path : list Z) (start_pos : float * float)
    (r : t) : t :=
  {| robot_id := robot_id r; current_vertex := current_vertex r;
     target_vertex := Some target; status := Robot.MOVING; path := path;
     current_edge_index := 0%nat;
     current_x := start_pos.1; current_y := start_pos.2;
     next_x := if (1 <? length path)%nat then start_pos.1 else next_x r;
     next_y := if (1 <? length path)%nat then start_pos.2 else next_y r;
     move_progress := 0; move_speed := move_speed r;
     blocked_by := blocked_by r; last_retry_time := last_retry_time r |}.

(** Python's [min(a, b)] and [max(a, b)] on two floats: the first argument
    unless the second is strictly smaller (larger). *)
Definition py_min (a b : float) : float := if PrimFloat.ltb b a then b else a.
Definition py_max (a b : float) : float := if PrimFloat.ltb a b then b else a.

(** [_smooth_step] and [_lerp] (lines 110-119). *)
Definition _smooth_step (x : float) : float :=
  let x := py_max 0 (py_min 1 x) in
  PrimFloat.mul (PrimFloat.mul x x)
    (PrimFloat.sub 3 (PrimFloat.mul 2 x)).

Definition _lerp (start end_ t : float) : float :=
  let t := py_max 0 (py_min 1 t) in
  PrimFloat.add start (PrimFloat.mul (PrimFloat.sub end_ start) t).

(** [update_position] (lines 70-108), with the structure of
    [Robot.update_position]; [>=] on floats is [PrimFloat.leb] with the
    arguments exchanged.  The result is [None] when the source fails: the
    lookup is applied to an absent target (line 78), or a path index is out
    of range. *)
Definition update_position (delta_time : float)
    (get_vertex_pos : Z → float * float) (r : t) : option t :=
  if bool_decide (status r ≠ Robot.MOVING) || bool_decide (path r = [])
  then Some r
  else if (length (path r) - 1 <=? current_edge_index r)%nat then
    match target_vertex r with
    | Some target =>
        let final_pos := get_vertex_pos target in
        Some {| robot_id := robot_id r; current_vertex := target;
                target_vertex := target_vertex r;
                status := Robot.TASK_COMPLETE;
                path := path r; current_edge_index := current_edge_index r;
                current_x := final_pos.1; current_y := final_pos.2;
                next_x := next_x r; next_y := next_y r;
                move_progress := move_progress r; move_speed := move_speed r;
                blocked_by := blocked_by r;
                last_retry_time := last_retry_time r |}
    | None => None
    end
  else
    match path r !! current_edge_index r,
          path r !! S (current_edge_index r) with
    | Some current_vertex0, Some next_vertex =>
        let progress :=
          PrimFloat.add (move_progress r)
            (PrimFloat.mul (move_speed r) delta_time) in
        let crossed := PrimFloat.leb 1 progress in
        let index := if crossed then S (current_edge_index r)
                     else current_edge_index r in
        let ends :=
          if crossed && (index <? length (path r) - 1)%nat then
            match path r !! index, path r !! S index with
            | Some a, Some b => Some (get_vertex_pos a, get_vertex_pos b)
            | _, _ => None
            end
          else Some (get_vertex_pos current_vertex0, get_vertex_pos next_vertex)
        in
        match ends with
        | Some (current_pos, next_pos) =>
            let progress' := if crossed then 0%float else progress in
            let s := _smooth_step progress' in
            Some {| robot_id := robot_id r;
                    current_vertex := if crossed then next_vertex
                                      else current_vertex r;
                    target_vertex := target_vertex r; status := status r;
                    path := path r; current_edge_index := index;
                    current_x := _lerp current_pos.1 next_pos.1 s;
                    current_y := _lerp current_pos.2 next_pos.2 s;
                    next_x := next_x r; next_y := next_y r;
                    move_progress := progress'; move_speed := move_speed r;
                    blocked_by := blocked_by r;
                    last_retry_time := last_retry_time r |}
        | None => None
        end
    | _, _ => None
    end.

(** [n] successive calls of [update_position] with the same [delta_time]. *)
Fixpoint advance (n : nat) (delta_time : float)
    (get_vertex_pos : Z → float * float) (r : t) : option t :=
  match n with
  | O => Some r
  | S n' =>
      match update_position delta_time get_vertex_pos r with
      | Some r' => advance n' delta_time get_vertex_pos r'
      | None => None
      end
  end.

(** The progress after [k] more calls on one edge: [k] additions of the
    step [c] to the progress [p], as line 92 accumulates them. *)
Fixpoint accumulated (p c : float) (k : nat) : float :=
  match k with
  | O => p
  | S k' => PrimFloat.add (accumulated p c k') c
  end.
End Robot64.

(** ** The fleet orchestrator ([controllers/fleet_manager.py]) *)

Module FleetManager.

(** The navigation graph ([src.models.nav_graph.NavGraph]) is an external
    collaborator: the orchestrator only reads its vertex table (the
    coordinates of every known vertex), asks it for a shortest path (a
    sequence of vertex ids, empty when there is none) and for the position of
    a vertex. *)
Record NavGraph : Type := {
  vertices : gmap Z (Q * Q);
  get_shortest_path : Z → Z → list Z;
  get_vertex_position : Z → Q * Q
}.

(** The robots dictionary, in insertion order. *)
Definition dict : Type := list (Z * Robot.t).

Fixpoint dict_get (k : Z) (d : dict) : option Robot.t :=
  match d with
  | [] => None
  | (k', v) :: d' => if k' =? k then Some v else dict_get k d'
  end.

Fixpoint dict_set (k : Z) (v : Robot.t) (d : dict) : dict :=
  match d with
  | [] => [(k, v)]
  | (k', v') :: d' =>
      if k' =? k then (k, v) :: d' else (k', v') :: dict_set k v d'
  end.

(** [FleetManager.__init__]; [last_update] is the attribute read with
    [getattr(self, 'last_update', current_time)], absent before the first
    tick.  [active_tasks] is never read or written after construction. *)
Record t : Type := mk {
  robots : dict;
  traffic_manager : TrafficManager.t;
  next_robot_id : Z;
  last_update : option Q
}.

Definition __init__ : t := mk [] TrafficManager.__init__ 1 None.

(** Exceptions the modelled code can raise. *)
Inductive exn : Type := TypeError | LookupError.

(** The outcome of a method that may raise: the orchestrator as the method
    left it, with either the returned value or the exception. *)
Inductive outcome (A : Type) : Type :=
  | Return (fm : t) (a : A)
  | Raises (fm : t) (e : exn).
Arguments Return {A} fm a.
Arguments Raises {A} fm e.

Definition with_robot (fm : t) (k : Z) (r : Robot.t) : t :=
  mk (dict_set k r (robots fm)) (traffic_manager fm) (next_robot_id fm)
     (last_update fm).

Definition with_traffic (fm : t) (tm : TrafficManager.t) : t :=
  mk (robots fm) tm (next_robot_id fm) (last_update fm).

(** Lines 24-25 of [spawn_robot]: the new robot is put at the coordinates of
    its vertex. *)
Definition with_position (x y : Q) (r : Robot.t) : Robot.t :=
  {| Robot.robot_id := Robot.robot_id r;
     Robot.current_vertex := Robot.current_vertex r;
     Robot.target_vertex := Robot.target_vertex r;
     Robot.status := Robot.status r;
     Robot.path := Robot.path r;
     Robot.current_edge_index := Robot.current_edge_index r;
     Robot.current_x := x; Robot.current_y := y;
     Robot.next_x := Robot.next_x r; Robot.next_y := Robot.next_y r;
     Robot.move_progress := Robot.move_progress r;
     Robot.move_speed := Robot.move_speed r;
     Robot.blocked_by := Robot.blocked_by r;
     Robot.last_retry_time := Robot.last_retry_time r |}.

(** A positional call of [release_path]: Python checks the arity of the
    call against the signature [release_path(self, robot_id, vertex_id)] and
    raises [TypeError] when an argument is missing. *)
Definition call_release_path (tm : TrafficManager.t) (args : list Z)
  : option (TrafficManager.t * option (list Z)) :=
  match args with
  | [robot_id; vertex_id] =>
      Some (TrafficManager.release_path tm robot_id vertex_id)
  | _ => None
  end.

Section Orchestrator.

Variable nav_graph : NavGraph.

(** [spawn_robot] (lines 16-29). *)
Definition spawn_robot (fm : t) (vertex_id : Z) : t * option Robot.t :=
  match vertices nav_graph !! vertex_id with
  | None => (fm, None)
  | Some (x, y) =>
      let robot := with_position x y
                     (Robot.__init__ (next_robot_id fm) vertex_id) in
      (mk (dict_set (next_robot_id fm) robot (robots fm))
          (traffic_manager fm) (next_robot_id fm + 1) (last_update fm),
       Some robot)
  end.

(** [assign_task] (lines 31-53); [now] is the clock reading of the nested
    [request_path]. *)
Definition assign_task (fm : t) (robot_id target_vertex : Z) (now : Q)
  : t * bool :=
  match dict_get robot_id (robots fm) with
  | None => (fm, false)
  | Some robot =>
      match Robot.status robot with
      | Robot.IDLE | Robot.TASK_COMPLETE =>
          let path := get_shortest_path nav_graph
                        (Robot.current_vertex robot) target_vertex in
          match path with
          | [] => (fm, false)
          | _ =>
              let '(tm, (can_move, blocking_robot)) :=
                TrafficManager.request_path (traffic_manager fm)
                  robot_id now path in
              let fm1 := with_traffic fm tm in
              if can_move then
                let start_pos := get_vertex_position nav_graph
                                   (Robot.current_vertex robot) in
                (with_robot fm1 robot_id
                   (Robot.start_task target_vertex path start_pos robot),
                 true)
              else
                (with_robot fm1 robot_id
                   (Robot.set_blocked blocking_robot robot), false)
          end
      | _ => (fm, false)
      end
  end.

(** [cancel_task] (lines 88-100).  Line 95 calls [release_path(robot_id)],
    one positional argument for a method that takes two. *)
Definition cancel_task (fm : t) (robot_id : Z) : outcome bool :=
  match dict_get robot_id (robots fm) with
  | None => Return fm false
  | Some robot =>
      match Robot.status robot with
      | Robot.MOVING | Robot.WAITING =>
          match call_release_path (traffic_manager fm) [robot_id] with
          | None => Raises fm TypeError
          | Some (tm, _) =>
              let robot' :=
                {| Robot.robot_id := Robot.robot_id robot;
                   Robot.current_vertex := Robot.current_vertex robot;
                   Robot.target_vertex := None; Robot.status := Robot.IDLE;
                   Robot.path := [];
                   Robot.current_edge_index := Robot.current_edge_index robot;
                   Robot.current_x := Robot.current_x robot;
                   Robot.current_y := Robot.current_y robot;
                   Robot.next_x := Robot.next_x robot;
                   Robot.next_y := Robot.next_y robot;
                   Robot.move_progress := Robot.move_progress robot;
                   Robot.move_speed := Robot.move_speed robot;
                   Robot.blocked_by := Robot.blocked_by robot;
                   Robot.last_retry_time := Robot.last_retry_time robot |} in
              Return (with_robot (with_traffic fm tm) robot_id robot') true
          end
      | _ => Return fm false
      end
  end.

(** The body of the loop of [update_robots] (lines 62-86) for the robot
    stored under [k].  [request_time] is the clock reading of the
    [request_path] nested in a retry.

    Lines 70-73: [release_path] returns either [None] or a list.  With
    [None] the test [next_robot is not None] fails and the body is skipped.
    With a list, [next_robot in self.robots] hashes the list to look it up in
    a dictionary, which raises [TypeError] (a list is unhashable), so lines
    74-77 are not reached. *)
Definition update_robot (current_time delta_time request_time : Q)
    (fm : t) (k : Z) : outcome unit :=
  match dict_get k (robots fm) with
  | None => Return fm tt
  | Some robot =>
      match Robot.status robot with
      | Robot.MOVING =>
          let old_vertex := Robot.current_vertex robot in
          match Robot.update_position delta_time
                  (get_vertex_position nav_graph) robot with
          | None => Raises fm LookupError
          | Some robot' =>
              let fm1 := with_robot fm k robot' in
              if bool_decide (Robot.current_vertex robot' ≠ old_vertex) then
                let '(tm, next_robot) :=
                  TrafficManager.release_path (traffic_manager fm1)
                    (Robot.robot_id robot') old_vertex in
                let fm2 := with_traffic fm1 tm in
                match next_robot with
                | None => Return fm2 tt
                | Some _ => Raises fm2 TypeError
                end
              else Return fm1 tt
          end
      | Robot.BLOCKED =>
          let skip :=
            match Robot.last_retry_time robot with
            | Some last => Qltb (current_time - last) 1
            | None => false
            end in
          if skip then Return fm tt
          else
            let robot' :=
              {| Robot.robot_id := Robot.robot_id robot;
                 Robot.current_vertex := Robot.current_vertex robot;
                 Robot.target_vertex := Robot.target_vertex robot;
                 Robot.status := Robot.status robot;
                 Robot.path := Robot.path robot;
                 Robot.current_edge_index := Robot.current_edge_index robot;
                 Robot.current_x := Robot.current_x robot;
                 Robot.current_y := Robot.current_y robot;
                 Robot.next_x := Robot.next_x robot;
                 Robot.next_y := Robot.next_y robot;
                 Robot.move_progress := Robot.move_progress robot;
                 Robot.move_speed := Robot.move_speed robot;
                 Robot.blocked_by := Robot.blocked_by robot;
                 Robot.last_retry_time := Some current_time |} in
            let fm1 := with_robot fm k robot' in
            match Robot.target_vertex robot' with
            | Some target =>
                Return (assign_task fm1 (Robot.robot_id robot') target
                          request_time).1 tt
            | None => Return fm1 tt
            end
      | _ => Return fm tt
      end
  end.

(** The loop over [self.robots.values()]: the keys are fixed when the loop
    starts (the body never adds or removes a robot), every robot is read in
    the state the earlier iterations left it, and an exception ends the
    loop. *)
Fixpoint update_loop (current_time delta_time request_time : Q)
    (keys : list Z) (fm : t) : outcome unit :=
  match keys with
  | [] => Return fm tt
  | k :: keys' =>
      match update_robot current_time delta_time request_time fm k with
      | Return fm' _ =>
          update_loop current_time delta_time request_time keys' fm'
      | Raises fm' e => Raises fm' e
      end
  end.

(** [update_robots] (lines 55-86). *)
Definition update_robots (current_time request_time : Q) (fm : t)
  : outcome unit :=
  let delta_time :=
    Qmin (1 # 10) (current_time - default current_time (last_update fm)) in
  let fm0 := mk (robots fm) (traffic_manager fm) (next_robot_id fm)
               (Some current_time) in
  update_loop current_time delta_time request_time (map fst (robots fm0)) fm0.

End Orchestrator.

End FleetManager.

(** ** Leases: the elements of a path and the history of grants *)

Module Leases.

Import TrafficManager.

(** A reservable element: a vertex [inl v] or a directed edge [inr (u, v)]. *)
Definition elem : Type := (Z + Z * Z)%type.

Definition is_edge (e : elem) : bool :=
  match e with inl _ => false | inr _ => true end.

(** The vertex under which a denied request is queued: the element itself
    for a vertex, the origin for an edge. *)
Definition source (e : elem) : Z :=
  match e with inl v => v | inr (u, _) => u end.

(** The elements of a path in the order in which the loops of [request_path]
    visit them: every vertex but the last, each followed by its outgoing
    edge. *)
Fixpoint path_elems (path : list Z) : list elem :=
  match path with
  | u :: ((v :: _) as rest) => inl u :: inr (u, v) :: path_elems rest
  | _ => []
  end.

(** The table entry of an element. *)
Definition lookup2 (tabs : gmap Z lock * gmap (Z * Z) lock) (e : elem)
  : option lock :=
  match e with inl v => tabs.1 !! v | inr uv => tabs.2 !! uv end.

Definition reservation (tm : TrafficManager.t) (e : elem) : option lock :=
  lookup2 (vertex_locks tm, edge_locks tm) e.

(** An element is contested for [robot_id] at [now] when its entry is held by
    another robot and has not expired. *)
Definition contested (tm : TrafficManager.t) (robot_id : Z) (now : Q)
    (e : elem) : bool :=
  match blocking robot_id now (reservation tm e) with
  | Some _ => true
  | None => false
  end.

(** *** History of grants

    The table keeps one entry per element, so a grant that overwrites an
    entry erases the trace of the earlier holder.  To state mutual exclusion
    between agents, the coordinator is run together with a lease book: for
    every agent and element, the time of the agent's latest grant of the
    element that the agent has not released since.  [clock] is the latest
    clock reading seen so far. *)
Record sys : Type := mkSys {
  tm : TrafficManager.t;
  book : gmap (Z * elem) Q;
  clock : Q
}.

Definition grant (robot_id : Z) (now : Q) (es : list elem)
    (b : gmap (Z * elem) Q) : gmap (Z * elem) Q :=
  foldr (λ e acc, <[(robot_id, e) := now]> acc) b es.

(** The book entries that [release_path robot_id vertex_id] gives up: the
    agent's lease on that vertex and all its leases on edges. *)
Definition given_up (robot_id vertex_id : Z) (k : Z * elem) : bool :=
  (k.1 =? robot_id)
  && (is_edge k.2 || bool_decide (k.2 = inl vertex_id)).

Inductive event : Type :=
  | Request (robot_id : Z) (path : list Z) (now : Q)
  | Release (robot_id vertex_id : Z).

Definition step (s : sys) (ev : event) : sys :=
  match ev with
  | Request robot_id path now =>
      let '(tm', (granted, _)) := request_path (tm s) robot_id now path in
      mkSys tm'
        (if granted then grant robot_id now (path_elems path) (book s)
         else book s)
        (Qmax (clock s) now)
  | Release robot_id vertex_id =>
      mkSys (release_path (tm s) robot_id vertex_id).1
        (filter (λ kv : (Z * elem) * Q,
                   given_up robot_id vertex_id kv.1 = false) (book s))
        (clock s)
  end.

(** The states reached from an empty coordinator by any sequence of
    [request_path] and [release_path] calls. *)
Inductive reachable : sys → Prop :=
  | reachable_init c0 : reachable (mkSys TrafficManager.__init__ ∅ c0)
  | reachable_step s ev : reachable s → reachable (step s ev).

(** A lease granted at [t0] is unexpired at [t]. *)
Definition unexpired (t0 t : Q) : Prop := (t - t0 < lock_duration)%Q.

End Leases.

(** * Statements and scenarios

    The definitions the properties below are stated with: the wording of the
    specification where it differs from the code, the invariants, and a
    small fleet on a line graph. *)

Section Statements.

Import TrafficManager Leases.

(** The release postcondition as the specification words it: the call
    returns the waiting-list contents of the vertex, an ordered sequence that
    may be empty. *)
Definition release_returns_waiting_list tm (a v : Z) : Prop :=
  (release_path tm a v).2 = Some (get_waiting_robots tm v).

(** The boundary claim as the specification words it: a request by another
    agent that traverses an element stamped [(h, t0)] before the lease has
    run out is denied with blocking id [h]. *)
Definition denied_with_holder tm (a : Z) (now : Q) p e : Prop :=
  ∀ h t0, reservation tm e = Some (h, t0) → h ≠ a → e ∈ path_elems p →
          unexpired t0 now →
          (request_path tm a now p).2 = (false, Some h).

(** The invariant that links the table to the lease book: every table entry
    is the holder's current lease, and a lease that is no longer in the table
    (it was overwritten) had already run out at the latest clock reading. *)
Definition book_inv (s : sys) : Prop :=
  (∀ e a ta, reservation (tm s) e = Some (a, ta) →
             book s !! (a, e) = Some ta) ∧
  (∀ a e t0, book s !! (a, e) = Some t0 →
             reservation (tm s) e = Some (a, t0) ∨
             (lock_duration <= clock s - t0)%Q).

(** A run in which robot 2 takes over vertex 1 after the lease of robot 1
    has run out: the book records both leases, the table only the later. *)
Definition takeover : sys :=
  step (step (mkSys TrafficManager.__init__ ∅ 0) (Request 1 [1; 2] 0))
       (Request 2 [1; 2] 6).

(** Robot 1 holds the path 1-2 since time 0; nobody has waited anywhere. *)
Definition reserved_by_1 : TrafficManager.t :=
  (request_path TrafficManager.__init__ 1 0 [1; 2]).1.

(** Robot 10 holds the path 1-2 since time 0. *)
Definition held_by_10 : TrafficManager.t :=
  (request_path TrafficManager.__init__ 10 0 [1; 2]).1.

(** Robot 10 holds 1-2 and robot 20 holds 2-3, both since time 0. *)
Definition two_holders : TrafficManager.t :=
  (request_path held_by_10 20 0 [2; 3]).1.

(** A robot spawned at vertex 1 whose first request was denied. *)
Definition denied_first_task : Robot.t :=
  Robot.set_blocked (Some 1)
    (FleetManager.with_position 0 0 (Robot.__init__ 2 1)).

(** An element holds a live reservation against [robot_id] at [now]: its
    table entry belongs to another robot and has not run out. *)
Definition live_foreign tm (robot_id : Z) (now : Q) (e : elem) : Prop :=
  ∃ h t0, reservation tm e = Some (h, t0) ∧ h ≠ robot_id ∧ (now - t0 < 5)%Q.

(** [e] is the first element of the path, in scan order, with a live
    reservation of another robot. *)
Definition first_live_foreign tm (robot_id : Z) (now : Q) (p : list Z)
    (e : elem) (h : Z) (t0 : Q) : Prop :=
  (∃ l1 l2, path_elems p = l1 ++ e :: l2 ∧
            ∀ e', e' ∈ l1 → ¬ live_foreign tm robot_id now e') ∧
  reservation tm e = Some (h, t0) ∧ h ≠ robot_id ∧ (now - t0 < 5)%Q.

(** Robot 10 holds 1-2 since time 0 and robot 30 has been denied 1-2-3 at
    time 1. *)
Definition denied_30 : TrafficManager.t :=
  (request_path held_by_10 30 1 [1; 2; 3]).1.

End Statements.

(** The agent [r'] is [r] turned BLOCKED by the holder [h]: the status is
    BLOCKED, [blocked_by] is [h], and every other attribute is as in [r]. *)
Definition blocked_by_holder (h : Z) (r r' : Robot.t) : Prop :=
  Robot.status r' = Robot.BLOCKED ∧
  Robot.blocked_by r' = Some h ∧
  Robot.robot_id r' = Robot.robot_id r ∧
  Robot.current_vertex r' = Robot.current_vertex r ∧
  Robot.target_vertex r' = Robot.target_vertex r ∧
  Robot.path r' = Robot.path r ∧
  Robot.current_edge_index r' = Robot.current_edge_index r ∧
  Robot.current_x r' = Robot.current_x r ∧
  Robot.current_y r' = Robot.current_y r ∧
  Robot.next_x r' = Robot.next_x r ∧
  Robot.next_y r' = Robot.next_y r ∧
  Robot.move_progress r' = Robot.move_progress r ∧
  Robot.move_speed r' = Robot.move_speed r ∧
  Robot.last_retry_time r' = Robot.last_retry_time r.

(** The position lookup of a line graph: vertex [v] is at [(v, 0)]. *)
Definition line_position (v : Z) : Q * Q := (inject_Z v, 0%Q).

(** A robot started on the path 1-2-3. *)
Definition started_robot : Robot.t :=
  Robot.start_task 3 [1; 2; 3] (line_position 1) (Robot.__init__ 1 1).

(** The position lookup of the line graph, in floats: vertex [v] is at
    [(v, 0)]. *)
Definition line_position64 (v : Z) : float * float :=
  (match v with
   | 1 => 1 | 2 => 2 | 3 => 3 | _ => 0
   end%float, 0%float).

(** A robot started on the one-edge path 1-2 and moved half way by one call
    with [delta_time = 10.0]: [0.05 * 10.0] is [0.5]. *)
Definition half_way : option Robot64.t :=
  Robot64.update_position 10 line_position64
    (Robot64.start_task 2 [1; 2] (line_position64 1) (Robot64.__init__ 1 1)).

(** The literals [1e-16] and [0.1]. *)
Definition tiny_delta : float := 0x1.cd2b297d889bcp-54%float.
Definition tick_delta : float := 0x1.999999999999ap-4%float.

(** A robot started on the path 1-2-3. *)
Definition started_robot64 : Robot64.t :=
  Robot64.start_task 3 [1; 2; 3] (line_position64 1) (Robot64.__init__ 1 1).

(** The robot is still moving before each of the first [n] calls. *)
Definition moving_until64 (delta_time : float)
    (get_vertex_pos : Z → float * float) (n : nat) (r : Robot64.t) : Prop :=
  ∀ k, (k < n)%nat →
       ∃ rk, Robot64.advance k delta_time get_vertex_pos r = Some rk ∧
             Robot64.status rk = Robot.MOVING.

(** The progress claim as the specification words it: some finite number of
    calls with the positive [delta_time] ends in TASK_COMPLETE. *)
Definition eventually_complete (delta_time : float)
    (get_vertex_pos : Z → float * float) (r : Robot64.t) : Prop :=
  ∃ n r', Robot64.advance n delta_time get_vertex_pos r = Some r' ∧
          Robot64.status r' = Robot.TASK_COMPLETE.

(** One operation on a robot: [start_task] (called by [assign_task], which
    has checked that the path is not empty), [update_position] with any
    [delta_time] and position lookup, [set_blocked], and the effect of
    [cancel_task] on the robot it is called for. *)
Inductive robot_step : Robot.t → Robot.t → Prop :=
  | step_start_task r target path start_pos :
      path ≠ [] →
      robot_step r (Robot.start_task target path start_pos r)
  | step_update_position r delta_time get_vertex_pos r' :
      Robot.update_position delta_time get_vertex_pos r = Some r' →
      robot_step r r'
  | step_set_blocked r blocking_robot_id :
      robot_step r (Robot.set_blocked blocking_robot_id r)
  | step_cancel_task fm k r fm' ret r' :
      FleetManager.dict_get k (FleetManager.robots fm) = Some r →
      FleetManager.cancel_task fm k = FleetManager.Return fm' ret →
      FleetManager.dict_get k (FleetManager.robots fm') = Some r' →
      robot_step r r'.

(** The robot states reached from a spawn by these operations. *)
Inductive robot_reachable : Robot.t → Prop :=
  | reachable_spawn robot_id vertex_id x y :
      robot_reachable
        (FleetManager.with_position x y (Robot.__init__ robot_id vertex_id))
  | reachable_robot_step r r' :
      robot_reachable r → robot_step r r' → robot_reachable r'.

(** The agent invariant as the specification words it. *)
Definition state_invariant (r : Robot.t) : Prop :=
  (Robot.path r ≠ [] ∧
   (Robot.current_edge_index r < length (Robot.path r))%nat
   ↔ Robot.status r = Robot.MOVING) ∧
  (is_Some (Robot.target_vertex r)
   ↔ Robot.status r = Robot.MOVING ∨ Robot.status r = Robot.BLOCKED ∨
     Robot.status r = Robot.WAITING).

(** The line graph 1 - 2 - 3. *)
Definition line_path (u v : Z) : list Z :=
  if (1 <=? u) && (u <=? 3) && (1 <=? v) && (v <=? 3) then
    if u <=? v then seqZ u (v - u + 1) else reverse (seqZ v (u - v + 1))
  else [].

Definition line_graph : FleetManager.NavGraph :=
  {| FleetManager.vertices :=
       list_to_map [(1, line_position 1); (2, line_position 2);
                    (3, line_position 3)];
     FleetManager.get_shortest_path := line_path;
     FleetManager.get_vertex_position := line_position |}.

Definition outcome_state {A} (o : FleetManager.outcome A) : FleetManager.t :=
  match o with
  | FleetManager.Return fm _ => fm
  | FleetManager.Raises fm _ => fm
  end.

(** The simulation thread of [main.py]: [update_robots] every tenth of a
    second; tick [i] reads the clock at [i / 10]. *)
Fixpoint ticks (n : nat) (i : Z) (fm : FleetManager.t)
  : FleetManager.outcome unit :=
  match n with
  | O => FleetManager.Return fm tt
  | S n' =>
      match FleetManager.update_robots line_graph (Qmake i 10) (Qmake i 10)
              fm with
      | FleetManager.Return fm' _ => ticks n' (i + 1) fm'
      | FleetManager.Raises fm' e => FleetManager.Raises fm' e
      end
  end.

(** Robot 1 is spawned at vertex 1 and robot 2 at vertex 2; at time 0 robot
    1 is sent to vertex 3 and gets the path 1-2-3. *)
Definition one_moving : FleetManager.t :=
  let fm1 :=
    (FleetManager.spawn_robot line_graph FleetManager.__init__ 1).1 in
  let fm2 := (FleetManager.spawn_robot line_graph fm1 2).1 in
  (FleetManager.assign_task line_graph fm2 1 3 0).1.

(** Robot 2 is then sent to vertex 1 and is denied: vertex 2 is leased to
    robot 1. *)
Definition one_moving_one_blocked : FleetManager.t :=
  (FleetManager.assign_task line_graph one_moving 2 1 0).1.

(** Robot 1 is spawned at vertex 1 and robot 2 at vertex 2; at time 0 robot
    2 is sent to vertex 1 and gets the path 2-1. *)
Definition first_task : FleetManager.t :=
  let fm1 :=
    (FleetManager.spawn_robot line_graph FleetManager.__init__ 1).1 in
  let fm2 := (FleetManager.spawn_robot line_graph fm1 2).1 in
  (FleetManager.assign_task line_graph fm2 2 1 0).1.

(** After robot 2 has completed that task, robot 1 is sent to vertex 2 and
    robot 2 asks for the same path, both at time [now]. *)
Definition second_tasks (now : Q) (fm : FleetManager.t) : FleetManager.t :=
  let fm1 := (FleetManager.assign_task line_graph fm 1 2 now).1 in
  (FleetManager.assign_task line_graph fm1 2 2 now).1.

(** The status, vertex and target of every robot. *)
Definition summary (fm : FleetManager.t)
  : list (Z * Robot.RobotStatus * Z * option Z) :=
  map (λ kv : Z * Robot.t,
         (kv.1, Robot.status kv.2, Robot.current_vertex kv.2,
          Robot.target_vertex kv.2))
      (FleetManager.robots fm).

(** Robot 2 asks for the path 1-2 one time unit after robot 1 was granted
    it, and is queued at vertex 1. *)
Definition contended : Leases.sys :=
  Leases.step
    (Leases.step (Leases.mkSys TrafficManager.__init__ ∅ 0)
       (Leases.Request 1 [1; 2] 0))
    (Leases.Request 2 [1; 2] 1).


(** Robot 1 spawned at vertex 1 and robot 2 at vertex 2. *)
Definition two_spawned : FleetManager.t :=
  (FleetManager.spawn_robot line_graph
     (FleetManager.spawn_robot line_graph FleetManager.__init__ 1).1 2).1.

(** Robot 2 as [one_moving_one_blocked] has it. *)
Definition blocked_robot_2 : Robot.t :=
  Robot.set_blocked (Some 1)
    (FleetManager.with_position (inject_Z 2) 0 (Robot.__init__ 2 2)).

(** ** Runs of the orchestrator *)

(** The robot [r] with its [last_retry_time] attribute set to [last]: what
    lines 81-84 of [update_robots] do to a BLOCKED robot. *)
Definition retried (last : option Q) (r : Robot.t) : Robot.t :=
  {| Robot.robot_id := Robot.robot_id r;
     Robot.current_vertex := Robot.current_vertex r;
     Robot.target_vertex := Robot.target_vertex r;
     Robot.status := Robot.status r;
     Robot.path := Robot.path r;
     Robot.current_edge_index := Robot.current_edge_index r;
     Robot.current_x := Robot.current_x r;
     Robot.current_y := Robot.current_y r;
     Robot.next_x := Robot.next_x r; Robot.next_y := Robot.next_y r;
     Robot.move_progress := Robot.move_progress r;
     Robot.move_speed := Robot.move_speed r;
     Robot.blocked_by := Robot.blocked_by r;
     Robot.last_retry_time := last |}.

Section FleetRuns.

Variable nav_graph : FleetManager.NavGraph.

(** One call of a public method of the orchestrator, with any arguments and
    any clock readings; a call that raises leaves the orchestrator in the
    state reached when the exception was raised. *)
Inductive fleet_step : FleetManager.t → FleetManager.t → Prop :=
  | fleet_spawn fm vertex_id :
      fleet_step fm (FleetManager.spawn_robot nav_graph fm vertex_id).1
  | fleet_assign fm robot_id target_vertex now :
      fleet_step fm
        (FleetManager.assign_task nav_graph fm robot_id target_vertex now).1
  | fleet_cancel fm robot_id :
      fleet_step fm (outcome_state (FleetManager.cancel_task fm robot_id))
  | fleet_tick fm current_time request_time :
      fleet_step fm
        (outcome_state
           (FleetManager.update_robots nav_graph current_time request_time
              fm)).

(** The orchestrators reached from a new one. *)
Inductive fleet_reachable : FleetManager.t → Prop :=
  | fleet_reachable_init : fleet_reachable FleetManager.__init__
  | fleet_reachable_step fm fm' :
      fleet_reachable fm → fleet_step fm fm' → fleet_reachable fm'.

End FleetRuns.

(** The robots of [d'] are those of [d], under the same keys and with the
    same ids. *)
Definition ids_kept (d d' : FleetManager.dict) : Prop :=
  map fst d' = map fst d ∧
  ∀ k r', FleetManager.dict_get k d' = Some r' →
          ∃ r, FleetManager.dict_get k d = Some r ∧
               Robot.robot_id r' = Robot.robot_id r.

(** Every robot is stored under its own id, the ids are distinct, and they
    are the numbers from 1 up to the next free id. *)
Definition fleet_wf (fm : FleetManager.t) : Prop :=
  NoDup (map fst (FleetManager.robots fm)) ∧
  1 <= FleetManager.next_robot_id fm ∧
  ∀ k r, FleetManager.dict_get k (FleetManager.robots fm) = Some r →
         Robot.robot_id r = k ∧ 1 <= k < FleetManager.next_robot_id fm.

(** Robot [k] is [r], up to the time of its last retry. *)
Definition frozen (k : Z) (r : Robot.t) (fm : FleetManager.t) : Prop :=
  ∃ last, FleetManager.dict_get k (FleetManager.robots fm)
          = Some (retried last r).

(** * Properties *)

Lemma Qltb_lt (x y : Q) : Qltb x y = true ↔ (x < y)%Q.
Proof.
  unfold Qltb. rewrite negb_true_iff. split.
  - intros H. apply Qnot_le_lt. intros Hle.
    apply Qle_bool_iff in Hle. congruence.
  - intros H. destruct (Qle_bool y x) eqn:E; [|done].
    apply Qle_bool_iff in E. exfalso. apply (Qlt_not_le _ _ H E).
Qed.

Lemma Qltb_ge (x y : Q) : Qltb x y = false ↔ (y <= x)%Q.
Proof.
  unfold Qltb. rewrite negb_false_iff. apply Qle_bool_iff.
Qed.

Section TrafficFacts.

Import TrafficManager Leases.

Implicit Types (tm : TrafficManager.t) (e : elem) (p : list Z).

(** [blocking] answers with the holder exactly for a live foreign entry. *)
Lemma blocking_Some a now l h :
  blocking a now l = Some h ↔
  ∃ t0, l = Some (h, t0) ∧ h ≠ a ∧ (now - t0 < lock_duration)%Q.
Proof.
  unfold blocking. split.
  - destruct l as [[h' t0]|]; [|done].
    destruct (negb (h' =? a) && _) eqn:E; [|done].
    intros [= ->]. apply andb_true_iff in E as [E1 E2].
    exists t0. split_and!; [done| |by apply Qltb_lt].
    apply negb_true_iff in E1. lia.
  - intros (t0 & -> & Hne & Hlt).
    apply Qltb_lt in Hlt. rewrite Hlt.
    by replace (h =? a) with false by lia.
Qed.

Lemma blocking_None a now l :
  blocking a now l = None ↔
  ∀ h t0, l = Some (h, t0) → h = a ∨ (lock_duration <= now - t0)%Q.
Proof.
  unfold blocking. split.
  - destruct l as [[h' t0]|]; [|done].
    destruct (negb (h' =? a) && _) eqn:E; [done|].
    intros _ h t1 [= -> ->]. apply andb_false_iff in E as [E|E].
    + left. apply negb_false_iff in E. lia.
    + right. by apply Qltb_ge.
  - intros H. destruct l as [[h' t0]|]; [|done].
    destruct (H h' t0 eq_refl) as [->|Hge].
    + by rewrite Z.eqb_refl.
    + apply Qltb_ge in Hge. rewrite Hge. by rewrite andb_false_r.
Qed.

Lemma scan_cons2 tm a now u v p :
  scan tm a now (u :: v :: p) =
  match blocking a now (vertex_locks tm !! u) with
  | Some lock_robot => Some (u, lock_robot)
  | None =>
      match blocking a now (edge_locks tm !! (u, v)) with
      | Some lock_robot => Some (u, lock_robot)
      | None => scan tm a now (v :: p)
      end
  end.
Proof. reflexivity. Qed.

Lemma path_elems_cons2 u v p :
  path_elems (u :: v :: p) = inl u :: inr (u, v) :: path_elems (v :: p).
Proof. reflexivity. Qed.

Lemma reserve_cons2 a now u v p vl el :
  reserve a now (u :: v :: p) vl el =
  reserve a now (v :: p) (<[u := (a, now)]> vl) (<[(u, v) := (a, now)]> el).
Proof. reflexivity. Qed.

(** The scan of [request_path] stops at the first contested element of the
    path, in the order of [path_elems]. *)
Lemma scan_find tm a now p :
  scan tm a now p =
  match find (contested tm a now) (path_elems p) with
  | Some e =>
      match blocking a now (reservation tm e) with
      | Some h => Some (source e, h)
      | None => None
      end
  | None => None
  end.
Proof.
  induction p as [|u p IH]; [done|]. destruct p as [|v p]; [done|].
  rewrite scan_cons2, path_elems_cons2, IH. cbn [find].
  assert (contested tm a now (inl u) =
          match blocking a now (vertex_locks tm !! u) with
          | Some _ => true | None => false end) as -> by reflexivity.
  assert (contested tm a now (inr (u, v)) =
          match blocking a now (edge_locks tm !! (u, v)) with
          | Some _ => true | None => false end) as -> by reflexivity.
  destruct (blocking a now (vertex_locks tm !! u)) as [h|] eqn:Ev.
  - change (reservation tm (inl u)) with (vertex_locks tm !! u).
    by rewrite Ev.
  - destruct (blocking a now (edge_locks tm !! (u, v))) as [h|] eqn:Ee.
    + change (reservation tm (inr (u, v))) with (edge_locks tm !! (u, v)).
      by rewrite Ee.
    + done.
Qed.

Lemma scan_None tm a now p :
  scan tm a now p = None ↔
  ∀ e, e ∈ path_elems p → blocking a now (reservation tm e) = None.
Proof.
  rewrite scan_find. split.
  - intros H e He.
    destruct (find _ _) as [e'|] eqn:Ef.
    + apply find_some in Ef as [_ Hc]. unfold contested in Hc.
      destruct (blocking a now (reservation tm e')); done.
    + apply list_elem_of_In in He.
      pose proof (find_none _ _ Ef e He) as Hc. unfold contested in Hc.
      destruct (blocking a now (reservation tm e)); done.
  - intros H. destruct (find _ _) as [e'|] eqn:Ef; [|done].
    apply find_some in Ef as [Hin _]. apply list_elem_of_In in Hin.
    by rewrite (H e' Hin).
Qed.

(** After the commit loop an element of the path carries the new stamp and
    any other element keeps its entry. *)
Lemma reserve_lookup a now p vl el e :
  lookup2 (reserve a now p vl el) e =
  if bool_decide (e ∈ path_elems p) then Some (a, now)
  else lookup2 (vl, el) e.
Proof.
  revert vl el. induction p as [|u p IH]; intros vl el.
  { cbn. case_bool_decide as H; [by apply elem_of_nil in H|done]. }
  destruct p as [|v p].
  { cbn. case_bool_decide as H; [by apply elem_of_nil in H|done]. }
  rewrite reserve_cons2, path_elems_cons2, IH.
  destruct (decide (e ∈ path_elems (v :: p))) as [Hin|Hnin].
  - rewrite !bool_decide_eq_true_2; [done| |done].
    rewrite !elem_of_cons. auto.
  - rewrite (bool_decide_eq_false_2 _ Hnin).
    destruct (decide (e = inl u)) as [->|Hu].
    { rewrite bool_decide_eq_true_2 by (rewrite elem_of_cons; auto).
      cbn [lookup2 fst]. apply lookup_insert_eq. }
    destruct (decide (e = inr (u, v))) as [->|Huv].
    { rewrite bool_decide_eq_true_2 by (rewrite !elem_of_cons; auto).
      cbn [lookup2 snd]. apply lookup_insert_eq. }
    rewrite bool_decide_eq_false_2.
    2:{ rewrite !elem_of_cons. intros [?|[?|?]]; done. }
    destruct e as [w|w]; cbn [lookup2 fst snd];
      apply lookup_insert_ne; congruence.
Qed.

(** The two outcomes of [request_path]. *)
Lemma request_path_denied tm a now p v h :
  scan tm a now p = Some (v, h) →
  request_path tm a now p =
  (TrafficManager.mk (vertex_locks tm) (edge_locks tm)
     (enqueue a v (waiting_queues tm)), (false, Some h)).
Proof. intros H. unfold request_path. by rewrite H. Qed.

Lemma request_path_granted tm a now p :
  scan tm a now p = None →
  (request_path tm a now p).2 = (true, None) ∧
  waiting_queues (request_path tm a now p).1 = waiting_queues tm ∧
  ∀ e, reservation (request_path tm a now p).1 e =
       if bool_decide (e ∈ path_elems p) then Some (a, now)
       else reservation tm e.
Proof.
  intros H. unfold request_path. rewrite H.
  pose proof (reserve_lookup a now p (vertex_locks tm) (edge_locks tm)) as L.
  destruct (reserve a now p (vertex_locks tm) (edge_locks tm)) as [vl el].
  split_and!; [done..|]. intros e. apply L.
Qed.

Lemma request_path_result tm a now p :
  (request_path tm a now p).2 =
  match scan tm a now p with
  | Some (_, h) => (false, Some h)
  | None => (true, None)
  end.
Proof.
  destruct (scan tm a now p) as [[v h]|] eqn:E.
  - by rewrite (request_path_denied _ _ _ _ _ _ E).
  - by apply request_path_granted.
Qed.

(** [find] returns the first element that satisfies the test. *)
Lemma find_first {A} (f : A → bool) (l : list A) (x : A) :
  find f l = Some x →
  ∃ l1 l2, l = l1 ++ x :: l2 ∧ f x = true ∧ ∀ y, y ∈ l1 → f y = false.
Proof.
  induction l as [|y l IH]; [done|]. cbn [find].
  destruct (f y) eqn:E.
  - intros [= ->]. exists [], l. split_and!; [done..|].
    intros z Hz. by apply elem_of_nil in Hz.
  - intros (l1 & l2 & -> & Hx & Hl1)%IH. exists (y :: l1), l2.
    split_and!; [done..|]. intros z [->|Hz]%elem_of_cons; auto.
Qed.

Lemma find_prefix {A} (f : A → bool) (l1 l2 : list A) (x : A) :
  f x = true → (∀ y, y ∈ l1 → f y = false) →
  find f (l1 ++ x :: l2) = Some x.
Proof.
  intros Hx. induction l1 as [|y l1 IH]; intros Hl1; cbn [app find].
  - by rewrite Hx.
  - rewrite (Hl1 y) by (apply elem_of_cons; auto).
    apply IH. intros z Hz. apply Hl1, elem_of_cons. auto.
Qed.

(** The queue of a vertex after [enqueue]. *)
Lemma enqueue_lookup a v wq u :
  enqueue a v wq !! u =
  if bool_decide (u = v) then
    let q := default [] (wq !! v) in
    Some (if bool_decide (a ∈ q) then q else q ++ [a])
  else wq !! u.
Proof.
  unfold enqueue. destruct (wq !! v) as [q|] eqn:E; cbn.
  - destruct (decide (a ∈ q)) as [Ha|Ha].
    + rewrite !(bool_decide_eq_true_2 _ Ha).
      case_bool_decide; by subst.
    + rewrite !(bool_decide_eq_false_2 _ Ha).
      case_bool_decide; subst;
        [apply lookup_insert_eq|by apply lookup_insert_ne].
  - case_bool_decide; subst;
      [apply lookup_insert_eq|by apply lookup_insert_ne].
Qed.

Lemma enqueue_NoDup a (q : list Z) :
  NoDup q → NoDup (if bool_decide (a ∈ q) then q else q ++ [a]).
Proof.
  intros H. case_bool_decide as Ha; [done|].
  apply NoDup_app. split_and!; [done| |apply NoDup_singleton].
  intros x Hx ->%list_elem_of_singleton. done.
Qed.

(** The tables after [release_path]. *)
Lemma release_path_tables tm a v :
  vertex_locks (release_path tm a v).1 =
    match vertex_locks tm !! v with
    | Some (h, _) =>
        if h =? a then delete v (vertex_locks tm) else vertex_locks tm
    | None => vertex_locks tm
    end ∧
  edge_locks (release_path tm a v).1 =
    filter (λ kv : (Z * Z) * lock, kv.2.1 ≠ a) (edge_locks tm).
Proof.
  unfold release_path. by destruct (waiting_queues tm !! v).
Qed.

Lemma release_path_vertex tm a v u :
  vertex_locks (release_path tm a v).1 !! u =
  match vertex_locks tm !! u with
  | Some (h, t0) => if bool_decide (u = v ∧ h = a) then None else Some (h, t0)
  | None => None
  end.
Proof.
  destruct (release_path_tables tm a v) as [-> _].
  destruct (decide (u = v)) as [->|Hne].
  - destruct (vertex_locks tm !! v) as [[h t0]|] eqn:E.
    + destruct (Z.eqb_spec h a) as [->|Hh].
      * rewrite lookup_delete_eq. by rewrite bool_decide_eq_true_2.
      * rewrite E. rewrite bool_decide_eq_false_2; [done|]. by intros [_ ?].
    + by rewrite E.
  - destruct (vertex_locks tm !! v) as [[h0 t1]|] eqn:Ev;
      [destruct (h0 =? a)|];
      rewrite ?lookup_delete_ne by congruence;
      (destruct (vertex_locks tm !! u) as [[h t0]|]; [|done];
       rewrite bool_decide_eq_false_2; [done|]; by intros [? _]).
Qed.

Lemma release_path_edge tm a v uv :
  edge_locks (release_path tm a v).1 !! uv =
  match edge_locks tm !! uv with
  | Some (h, t0) => if bool_decide (h = a) then None else Some (h, t0)
  | None => None
  end.
Proof.
  destruct (release_path_tables tm a v) as [_ ->].
  rewrite map_lookup_filter.
  destruct (edge_locks tm !! uv) as [[h t0]|]; [|done].
  cbn. case_bool_decide.
  - by rewrite option_guard_False by (cbn; auto).
  - by rewrite option_guard_True.
Qed.

(** Both tables at once, by element. *)
Lemma release_path_reservation tm a v e :
  reservation (release_path tm a v).1 e =
  match reservation tm e with
  | Some (h, t0) => if given_up a v (h, e) then None else Some (h, t0)
  | None => None
  end.
Proof.
  destruct e as [u|uv]; unfold reservation; cbn [lookup2 fst snd].
  - rewrite release_path_vertex.
    destruct (vertex_locks tm !! u) as [[h t0]|]; [|done].
    unfold given_up. cbn [fst snd is_edge orb].
    destruct (Z.eqb_spec h a) as [->|Hh]; cbn [andb].
    + destruct (decide (u = v)) as [->|Hne].
      * by rewrite !bool_decide_eq_true_2 by done.
      * rewrite !bool_decide_eq_false_2; [done|congruence|by intros [? _]].
    + rewrite bool_decide_eq_false_2; [done|]. by intros [_ ?].
  - rewrite release_path_edge.
    destruct (edge_locks tm !! uv) as [[h t0]|]; [|done].
    unfold given_up. cbn [fst snd is_edge orb]. rewrite andb_true_r.
    destruct (Z.eqb_spec h a) as [->|Hh].
    + by rewrite bool_decide_eq_true_2.
    + by rewrite bool_decide_eq_false_2.
Qed.

Lemma release_path_queue tm a v :
  match waiting_queues tm !! v with
  | Some q =>
      (release_path tm a v).2 = Some q ∧
      waiting_queues (release_path tm a v).1 = <[v := []]> (waiting_queues tm)
  | None =>
      (release_path tm a v).2 = None ∧
      waiting_queues (release_path tm a v).1 = waiting_queues tm
  end.
Proof.
  unfold release_path. by destruct (waiting_queues tm !! v).
Qed.

(** The test of the scan and the table. *)
Lemma contested_false tm a now e :
  contested tm a now e = false ↔ blocking a now (reservation tm e) = None.
Proof.
  unfold contested. destruct (blocking a now (reservation tm e)); split; done.
Qed.

(** The test of the scan holds exactly of a live foreign element. *)
Lemma contested_true tm a now e :
  contested tm a now e = true ↔ live_foreign tm a now e.
Proof.
  unfold contested, live_foreign. split.
  - destruct (blocking a now (reservation tm e)) as [h|] eqn:Eb; [|done].
    intros _. apply blocking_Some in Eb as (t0 & ? & ? & ?). by exists h, t0.
  - intros (h & t0 & Hres & Hne & Hl).
    assert (blocking a now (reservation tm e) = Some h) as ->; [|done].
    apply blocking_Some. by exists t0.
Qed.

Lemma contested_not_live tm a now e :
  contested tm a now e = false ↔ ¬ live_foreign tm a now e.
Proof.
  rewrite <- contested_true. by destruct (contested tm a now e).
Qed.

(** The scan stops at the first live foreign element and reports its
    vertex and holder. *)
Lemma scan_first tm a now p e h t0 :
  first_live_foreign tm a now p e h t0 →
  scan tm a now p = Some (source e, h).
Proof.
  intros ((l1 & l2 & Hsplit & Hl1) & Hres & Hne & Hl).
  rewrite scan_find, Hsplit, (find_prefix _ l1 l2 e).
  - assert (blocking a now (reservation tm e) = Some h) as ->; [|done].
    apply blocking_Some. by exists t0.
  - apply contested_true. by exists h, t0.
  - intros e' He'. by apply contested_not_live, Hl1.
Qed.

Lemma scan_Some_first tm a now p v h :
  scan tm a now p = Some (v, h) →
  ∃ e t0, v = source e ∧ first_live_foreign tm a now p e h t0.
Proof.
  rewrite scan_find.
  destruct (find (contested tm a now) (path_elems p)) as [e|] eqn:Ef; [|done].
  destruct (find_first _ _ _ Ef) as (l1 & l2 & Hsplit & _ & Hl1).
  destruct (blocking a now (reservation tm e)) as [h'|] eqn:Eb; [|done].
  intros [= <- <-]. apply blocking_Some in Eb as (t0 & Hres & Hne & Hl).
  exists e, t0. split; [done|]. split; [|done].
  exists l1, l2. split; [done|].
  intros e' He'. by apply contested_not_live, Hl1.
Qed.

Lemma scan_free tm a now p :
  scan tm a now p = None ↔
  ∀ e, e ∈ path_elems p → ¬ live_foreign tm a now e.
Proof.
  rewrite scan_None. split; intros H e He.
  - by apply contested_not_live, contested_false, H.
  - by apply contested_false, contested_not_live, H.
Qed.

(** A path with a live foreign element has a first one. *)
Lemma live_foreign_first tm a now p e :
  e ∈ path_elems p → live_foreign tm a now e →
  ∃ e1 h1 t1, first_live_foreign tm a now p e1 h1 t1.
Proof.
  intros He Hl.
  destruct (scan tm a now p) as [[v h]|] eqn:Hscan.
  - destruct (scan_Some_first _ _ _ _ _ _ Hscan) as (e1 & t1 & _ & H1).
    by exists e1, h, t1.
  - exfalso. by apply (proj1 (scan_free tm a now p) Hscan e He).
Qed.

(** The waiting queue of the vertex of a denial. *)
Lemma enqueue_waiting tm a v vl el :
  get_waiting_robots
    (TrafficManager.mk vl el (enqueue a v (waiting_queues tm))) v =
  if bool_decide (a ∈ get_waiting_robots tm v)
  then get_waiting_robots tm v else get_waiting_robots tm v ++ [a].
Proof.
  unfold get_waiting_robots. cbn [waiting_queues].
  by rewrite enqueue_lookup, bool_decide_eq_true_2 by done.
Qed.

End TrafficFacts.

(** ** The traffic coordinator: grants, denials, releases *)

Section TrafficClaims.

Import TrafficManager Leases.

Implicit Types (tm : TrafficManager.t) (e : elem) (p : list Z).

(** C2 (all-or-nothing grant).  An element of the path is live when its
    table entry belongs to another agent [h] and [now - t0 < 5] for its
    grant time [t0].
    - If [e], held by [h], is the first live element of the path in scan
      order, [request_path] returns [(false, h)], both lock tables are left
      exactly as they were, so no element receives a new reservation, and
      the queue of the vertex of [e] is the old queue with the agent appended
      unless it was already there: the agent is in it once it was there
      once, and a queue without duplicates stays without duplicates.  The
      other queues are untouched.
    - If any element of the path is live, there is a first one, so the call
      is such a denial.
    - If no element of the path is live, the call returns [(true, None)],
      every element of the path is stamped [(agent, now)], every other entry
      and the waiting queues are unchanged.
    - A granted call had no live element on its path. *)
Theorem request_path_all_or_nothing tm a now p :
  (∀ e h t0,
     first_live_foreign tm a now p e h t0 →
     (request_path tm a now p).2 = (false, Some h) ∧
     vertex_locks (request_path tm a now p).1 = vertex_locks tm ∧
     edge_locks (request_path tm a now p).1 = edge_locks tm ∧
     get_waiting_robots (request_path tm a now p).1 (source e) =
       (if bool_decide (a ∈ get_waiting_robots tm (source e))
        then get_waiting_robots tm (source e)
        else get_waiting_robots tm (source e) ++ [a]) ∧
     a ∈ get_waiting_robots (request_path tm a now p).1 (source e) ∧
     (NoDup (get_waiting_robots tm (source e)) →
      NoDup (get_waiting_robots (request_path tm a now p).1 (source e))) ∧
     (∀ v, v ≠ source e →
        waiting_queues (request_path tm a now p).1 !! v =
        waiting_queues tm !! v)) ∧
  (∀ e h t0,
     e ∈ path_elems p →
     reservation tm e = Some (h, t0) → h ≠ a → (now - t0 < 5)%Q →
     (∃ e1 h1 t1, first_live_foreign tm a now p e1 h1 t1) ∧
     (request_path tm a now p).2.1 = false ∧
     vertex_locks (request_path tm a now p).1 = vertex_locks tm ∧
     edge_locks (request_path tm a now p).1 = edge_locks tm) ∧
  ((∀ e h t0, e ∈ path_elems p → reservation tm e = Some (h, t0) →
              h = a ∨ (5 <= now - t0)%Q) →
   (request_path tm a now p).2 = (true, None) ∧
   (∀ e, e ∈ path_elems p →
      reservation (request_path tm a now p).1 e = Some (a, now)) ∧
   (∀ e, e ∉ path_elems p →
      reservation (request_path tm a now p).1 e = reservation tm e) ∧
   waiting_queues (request_path tm a now p).1 = waiting_queues tm) ∧
  ((request_path tm a now p).2.1 = true →
   ∀ e h t0, e ∈ path_elems p → reservation tm e = Some (h, t0) →
             h = a ∨ (5 <= now - t0)%Q).
Proof.
  assert (∀ e h t0, first_live_foreign tm a now p e h t0 →
            request_path tm a now p =
            (TrafficManager.mk (vertex_locks tm) (edge_locks tm)
               (enqueue a (source e) (waiting_queues tm)), (false, Some h)))
    as Hdenied.
  { intros e h t0 Hf.
    by apply request_path_denied, (scan_first _ _ _ _ _ _ t0). }
  assert ((∀ e h t0, e ∈ path_elems p → reservation tm e = Some (h, t0) →
                     h = a ∨ (5 <= now - t0)%Q) ↔
          scan tm a now p = None) as Hfree.
  { rewrite scan_free. split.
    - intros H e He (h & t0 & Hres & Hne & Hl).
      destruct (H e h t0 He Hres) as [?|Hge]; [done|].
      lra.
    - intros H e h t0 He Hres.
      destruct (decide (h = a)) as [?|Hne]; [by left|right].
      destruct (Qlt_le_dec (now - t0) 5) as [Hlt|?]; [|done].
      exfalso. apply (H e He). by exists h, t0. }
  split; [|split; [|split]].
  - intros e h t0 Hf. rewrite (Hdenied e h t0 Hf). cbn [fst snd].
    rewrite enqueue_waiting.
    split_and!; try done.
    + case_bool_decide; [done|]. apply elem_of_app. right.
      by apply list_elem_of_singleton.
    + apply enqueue_NoDup.
    + intros v Hv. cbn [waiting_queues]. rewrite enqueue_lookup.
      by rewrite bool_decide_eq_false_2.
  - intros e h t0 He Hres Hne Hl.
    destruct (live_foreign_first tm a now p e He) as (e1 & h1 & t1 & Hf).
    { by exists h, t0. }
    split; [by exists e1, h1, t1|]. by rewrite (Hdenied e1 h1 t1 Hf).
  - intros Hall. apply Hfree in Hall.
    destruct (request_path_granted _ _ _ _ Hall) as (Hr & Hq & Ht).
    split; [done|]. split; [|split; [|done]].
    + intros e He. rewrite Ht. by rewrite bool_decide_eq_true_2.
    + intros e He. rewrite Ht. by rewrite bool_decide_eq_false_2.
  - intros Hg. apply Hfree.
    rewrite request_path_result in Hg.
    by destruct (scan tm a now p) as [[v h]|].
Qed.

(** Robot 30 asks for 1-2-3 one time unit after robot 10 reserved 1-2: it is
    denied with blocking id 10, vertex 1 keeps the stamp of robot 10, vertex
    2 gets no reservation, and robot 30 waits at vertex 1. *)
Lemma request_path_all_or_nothing_witness :
  (request_path held_by_10 30 1 [1; 2; 3]).2 = (false, Some 10) ∧
  reservation denied_30 (inl 1) = Some (10, 0%Q) ∧
  reservation denied_30 (inl 2) = None ∧
  get_waiting_robots denied_30 1 = [30].
Proof.
  destruct (proj1 (request_path_all_or_nothing held_by_10 30 1 [1; 2; 3])
              (inl 1) 10 0%Q)
    as (Hres & Hvl & Hel & Hq & _).
  { split; [|by vm_compute].
    exists [], [inr (1, 2); inl 2; inr (2, 3)]. split; [done|].
    intros e' He'. by apply elem_of_nil in He'. }
  split; [exact Hres|]. split; [|split].
  - unfold denied_30, reservation. cbn [lookup2 fst]. rewrite Hvl.
    by vm_compute.
  - unfold denied_30, reservation. cbn [lookup2 fst]. rewrite Hvl.
    by vm_compute.
  - change (get_waiting_robots denied_30 1)
      with (get_waiting_robots (request_path held_by_10 30 1 [1; 2; 3]).1
              (source (inl 1))).
    rewrite Hq. by vm_compute.
Defined.

(** C10 (uniform lease-set timestamp).  When [request_path] grants a path,
    every vertex and edge of the path carries the single clock reading [now]
    of the call, so any two of them have the same grant time and are
    unexpired at exactly the same instants. *)
Theorem granted_path_uniform_timestamp tm a now p tm' blocker :
  request_path tm a now p = (tm', (true, blocker)) →
  (∀ e, e ∈ path_elems p → reservation tm' e = Some (a, now)) ∧
  (∀ e1 e2 h1 t1 h2 t2,
     e1 ∈ path_elems p → e2 ∈ path_elems p →
     reservation tm' e1 = Some (h1, t1) →
     reservation tm' e2 = Some (h2, t2) →
     t1 = t2 ∧ ∀ t, unexpired t1 t ↔ unexpired t2 t).
Proof.
  intros Hreq.
  assert (scan tm a now p = None) as Hscan.
  { pose proof (request_path_result tm a now p) as Hr. rewrite Hreq in Hr.
    destruct (scan tm a now p) as [[v h]|]; [|done]. cbn in Hr. congruence. }
  destruct (request_path_granted _ _ _ _ Hscan) as (_ & _ & Ht).
  rewrite Hreq in Ht. cbn [fst] in Ht.
  assert (∀ e, e ∈ path_elems p → reservation tm' e = Some (a, now)) as Hall.
  { intros e He. rewrite Ht. by rewrite bool_decide_eq_true_2. }
  split; [done|].
  intros e1 e2 h1 t1 h2 t2 H1 H2 R1 R2.
  rewrite (Hall _ H1) in R1. rewrite (Hall _ H2) in R2.
  injection R1 as <- <-. injection R2 as <- <-. done.
Qed.

(** On an empty table robot 1 is granted 1-2-3 at time 7/2: the edge
    (2, 3) carries that stamp. *)
Lemma granted_path_uniform_timestamp_witness :
  reservation (request_path TrafficManager.__init__ 1 (7 # 2) [1; 2; 3]).1
    (inr (2, 3)) = Some (1, 7 # 2).
Proof.
  apply (proj1 (granted_path_uniform_timestamp TrafficManager.__init__ 1 (7 # 2)
                  [1; 2; 3] _ None eq_refl)).
  cbn [path_elems]. rewrite !elem_of_cons. auto.
Defined.

(** C5, as stated, fails: a vertex that never had a waiter has no entry in
    [waiting_queues], and [release_path] then returns [None], not the empty
    sequence.  Here robot 1 reserves the path 1-2 and releases vertex 1. *)
Lemma release_path_returns_none_without_queue :
  get_waiting_robots reserved_by_1 1 = [] ∧
  (release_path reserved_by_1 1 1).2 = None ∧
  ¬ release_returns_waiting_list reserved_by_1 1 1.
Proof. by vm_compute. Qed.

(** C5 (release postcondition, amended).  [release_path agent v] removes the
    vertex reservation at [v] exactly when [agent] holds it and leaves every
    other vertex reservation as it is; it removes every edge reservation
    held by [agent], whatever its endpoints, and leaves the edge reservations
    of other agents as they are.  If [v] has an entry in the waiting table,
    the call returns the recorded queue, in order, and resets the entry to
    the empty queue; if [v] has no entry, the call returns [None] and leaves
    the waiting table unchanged.  In both cases no waiter remains recorded at
    [v] and the queues of other vertices are unchanged. *)
Theorem release_path_postcondition tm a v :
  (∀ u, vertex_locks (release_path tm a v).1 !! u =
        match vertex_locks tm !! u with
        | Some (h, t0) =>
            if bool_decide (u = v ∧ h = a) then None else Some (h, t0)
        | None => None
        end) ∧
  (∀ uv, edge_locks (release_path tm a v).1 !! uv =
         match edge_locks tm !! uv with
         | Some (h, t0) => if bool_decide (h = a) then None else Some (h, t0)
         | None => None
         end) ∧
  match waiting_queues tm !! v with
  | Some q =>
      (release_path tm a v).2 = Some q ∧
      waiting_queues (release_path tm a v).1 = <[v := []]> (waiting_queues tm)
  | None =>
      (release_path tm a v).2 = None ∧
      waiting_queues (release_path tm a v).1 = waiting_queues tm
  end ∧
  get_waiting_robots (release_path tm a v).1 v = [] ∧
  (∀ u, u ≠ v →
     waiting_queues (release_path tm a v).1 !! u = waiting_queues tm !! u).
Proof.
  split_and!.
  - apply release_path_vertex.
  - apply release_path_edge.
  - apply release_path_queue.
  - pose proof (release_path_queue tm a v) as H. unfold get_waiting_robots.
    destruct (waiting_queues tm !! v) as [q|] eqn:E; destruct H as [_ ->].
    + by rewrite lookup_insert_eq.
    + by rewrite E.
  - intros u Hu. pose proof (release_path_queue tm a v) as H.
    destruct (waiting_queues tm !! v) as [q|]; destruct H as [_ ->];
      [by apply lookup_insert_ne|done].
Qed.

(** C8, as stated, fails: the blocking id is the holder of the first
    contested element of the path, which need not be the element one looks
    at.  Robot 10 holds vertex 1 and robot 20 holds vertex 2, both since time
    0; robot 30 asks for 1-2-3 at time 1 and is denied with blocking id 10,
    although it also traverses vertex 2, held by 20. *)
Lemma request_path_reports_first_holder :
  reservation two_holders (inl 2) = Some (20, 0%Q) ∧
  (request_path two_holders 30 1 [1; 2; 3]).2 = (false, Some 10) ∧
  ¬ denied_with_holder two_holders 30 1 [1; 2; 3] (inl 2).
Proof.
  assert (reservation two_holders (inl 2) = Some (20, 0%Q)) as H1
    by by vm_compute.
  assert ((request_path two_holders 30 1 [1; 2; 3]).2 = (false, Some 10))
    as H2 by by vm_compute.
  split_and!; [done..|]. intros H.
  specialize (H 20 0%Q H1).
  rewrite H2 in H.
  assert ((false, Some 10) = (false, Some 20)) as Habs; [|done].
  apply H; [done| |by vm_compute].
  cbn [path_elems]. rewrite !elem_of_cons. auto.
Qed.

(** C8 (lease expiry boundary, amended).  Let element [e] of the path be
    stamped [(h, t0)] with [h] another agent than the requester.
    - While [now - t0 < 5], the request is denied, and the blocking id it
      returns is the holder of the first live element of the path; that id
      is [h] when no element before [e] is live.
    - Once [now - t0 >= 5], the entry does not block: the request is granted
      when no other element of the path is live.
    - [request_path] never deletes an entry: every element that has an entry
      still has one afterwards; a denied request leaves the entry of [e] as
      it is, a granted one overwrites it with [(requester, now)].
    - [release_path] by another agent keeps the entry; [release_path] by the
      holder at vertex [v] removes it when [e] is an edge or the vertex [v]
      itself, and keeps it when [e] is another vertex. *)
Theorem lease_expiry_boundary tm a now p e h t0 :
  reservation tm e = Some (h, t0) → h ≠ a → e ∈ path_elems p →
  ((now - t0 < 5)%Q →
     (∃ e1 h1 t1,
        first_live_foreign tm a now p e1 h1 t1 ∧
        (request_path tm a now p).2 = (false, Some h1)) ∧
     (∀ l1 l2, path_elems p = l1 ++ e :: l2 →
        (∀ e', e' ∈ l1 → ¬ live_foreign tm a now e') →
        (request_path tm a now p).2 = (false, Some h))) ∧
  ((5 <= now - t0)%Q →
     (∀ e', e' ∈ path_elems p → e' ≠ e → ¬ live_foreign tm a now e') →
     (request_path tm a now p).2 = (true, None)) ∧
  (∀ e', is_Some (reservation tm e') →
         is_Some (reservation (request_path tm a now p).1 e')) ∧
  ((request_path tm a now p).2.1 = false →
   reservation (request_path tm a now p).1 e = Some (h, t0)) ∧
  ((request_path tm a now p).2.1 = true →
   reservation (request_path tm a now p).1 e = Some (a, now)) ∧
  (∀ b v, b ≠ h → reservation (release_path tm b v).1 e = Some (h, t0)) ∧
  (∀ v, reservation (release_path tm h v).1 e =
        if is_edge e || bool_decide (e = inl v) then None
        else Some (h, t0)).
Proof.
  intros Hres Hne Hin.
  split; [|split; [|split; [|split; [|split; [|split]]]]].
  - intros Hl. split.
    + destruct (live_foreign_first tm a now p e Hin) as (e1 & h1 & t1 & Hf).
      { by exists h, t0. }
      exists e1, h1, t1. split; [done|].
      by rewrite (request_path_denied _ _ _ _ _ _
                    (scan_first _ _ _ _ _ _ _ Hf)).
    + intros l1 l2 Hsplit Hl1.
      assert (first_live_foreign tm a now p e h t0) as Hf.
      { split; [by exists l1, l2|done]. }
      by rewrite (request_path_denied _ _ _ _ _ _
                    (scan_first _ _ _ _ _ _ _ Hf)).
  - intros Hexp Hothers.
    apply request_path_granted, scan_free. intros e' He'.
    destruct (decide (e' = e)) as [->|Hd]; [|by apply Hothers].
    intros (h' & t' & Hres' & _ & Hl). rewrite Hres in Hres'.
    injection Hres' as <- <-. lra.
  - intros e' He'.
    destruct (scan tm a now p) as [[v h1]|] eqn:Hscan.
    + by rewrite (request_path_denied _ _ _ _ _ _ Hscan).
    + destruct (request_path_granted _ _ _ _ Hscan) as (_ & _ & ->).
      by case_bool_decide.
  - destruct (scan tm a now p) as [[v h1]|] eqn:Hscan.
    + by rewrite (request_path_denied _ _ _ _ _ _ Hscan).
    + destruct (request_path_granted _ _ _ _ Hscan) as (-> & _). done.
  - destruct (scan tm a now p) as [[v h1]|] eqn:Hscan.
    + by rewrite (request_path_denied _ _ _ _ _ _ Hscan).
    + destruct (request_path_granted _ _ _ _ Hscan) as (_ & _ & ->).
      by rewrite bool_decide_eq_true_2.
  - intros b v Hb. rewrite release_path_reservation, Hres.
    unfold given_up. cbn [fst].
    by destruct (Z.eqb_spec h b) as [->|].
  - intros v. rewrite release_path_reservation, Hres.
    unfold given_up. cbn [fst snd]. by rewrite Z.eqb_refl.
Qed.

(** Robot 30 asks for 1-2-3 one time unit after robot 10 reserved 1-2: it
    is denied with blocking id 10; a release by robot 10 at vertex 1 removes
    the entry of vertex 1. *)
Lemma lease_expiry_boundary_witness :
  (request_path held_by_10 30 1 [1; 2; 3]).2 = (false, Some 10) ∧
  reservation (release_path held_by_10 10 1).1 (inl 1) = None.
Proof.
  assert (reservation held_by_10 (inl 1) = Some (10, 0%Q)) as Hres
    by by vm_compute.
  assert (10 ≠ 30) as Hne by lia.
  assert (inl 1 ∈ path_elems [1; 2; 3]) as Hin
    by (cbn [path_elems]; rewrite !elem_of_cons; auto).
  assert (1 - 0 < 5)%Q as Hlive by by vm_compute.
  pose proof (lease_expiry_boundary held_by_10 30 1 [1; 2; 3] (inl 1) 10 0%Q
                Hres Hne Hin) as (Hl & _ & _ & _ & _ & _ & Hrel).
  split; [|exact (Hrel 1)].
  apply (proj2 (Hl Hlive) [] [inr (1, 2); inl 2; inr (2, 3)] eq_refl).
  intros e' He'. by apply elem_of_nil in He'.
Defined.

End TrafficClaims.

(** ** Mutual exclusion of leases *)

Section MutualExclusion.

Import TrafficManager Leases.

Lemma grant_lookup (a : Z) (now : Q) (es : list elem)
    (b : gmap (Z * elem) Q) (x : Z) (e : elem) :
  grant a now es b !! (x, e) =
  if bool_decide (x = a ∧ e ∈ es) then Some now else b !! (x, e).
Proof.
  induction es as [|e0 es IH]; cbn [grant foldr].
  - rewrite bool_decide_eq_false_2; [done|].
    intros [_ H]. by apply elem_of_nil in H.
  - fold (grant a now es b).
    destruct (decide ((a, e0) = (x, e))) as [[= -> ->]|Hne].
    + rewrite lookup_insert_eq, bool_decide_eq_true_2; [done|].
      split; [done|]. apply elem_of_cons. auto.
    + rewrite lookup_insert_ne, IH by done.
      destruct (decide (x = a ∧ e ∈ es)) as [[-> He]|Hn].
      * rewrite !bool_decide_eq_true_2; [done| |done].
        split; [done|]. apply elem_of_cons. auto.
      * rewrite !bool_decide_eq_false_2; [done| |done].
        intros [-> [->|He]%elem_of_cons]; [done|]. by apply Hn.
Qed.

Lemma book_inv_init c0 : book_inv (mkSys TrafficManager.__init__ ∅ c0).
Proof.
  split.
  - intros [v|uv] a ta; unfold reservation, TrafficManager.__init__;
      cbn [tm lookup2 fst snd vertex_locks edge_locks];
      by rewrite lookup_empty.
  - intros a e t0. cbn [book]. by rewrite lookup_empty.
Qed.

Lemma book_inv_request s a p now :
  book_inv s → book_inv (step s (Request a p now)).
Proof.
  intros [Htab Hbook]. cbn [step].
  pose proof (Q.le_max_l (clock s) now) as Hmax1.
  pose proof (Q.le_max_r (clock s) now) as Hmax2.
  destruct (scan (tm s) a now p) as [[v h]|] eqn:Hscan.
  - rewrite (request_path_denied _ _ _ _ _ _ Hscan).
    split; cbn [tm book clock].
    + intros e x tx Hr. by apply Htab.
    + intros x e t0 Hb. destruct (Hbook _ _ _ Hb) as [Hr|Hexp]; [by left|].
      right. unfold lock_duration in *. lra.
  - destruct (request_path_granted _ _ _ _ Hscan) as (Hres & _ & Ht).
    destruct (request_path (tm s) a now p) as [tm' [g b]].
    cbn [fst snd] in Hres, Ht. injection Hres as -> ->.
    split; cbn [tm book clock].
    + intros e x tx. rewrite Ht, grant_lookup.
      destruct (decide (e ∈ path_elems p)) as [He|He].
      * rewrite (bool_decide_eq_true_2 _ He). intros [= <- <-].
        by rewrite bool_decide_eq_true_2.
      * rewrite (bool_decide_eq_false_2 _ He). intros Hr.
        rewrite bool_decide_eq_false_2 by (by intros [_ ?]).
        by apply Htab.
    + intros x e t0. rewrite Ht, grant_lookup.
      destruct (decide (e ∈ path_elems p)) as [He|He].
      * rewrite (bool_decide_eq_true_2 _ He).
        destruct (decide (x = a)) as [->|Hx].
        { rewrite bool_decide_eq_true_2 by done. intros [= <-]. by left. }
        rewrite bool_decide_eq_false_2 by (by intros [? _]).
        intros Hb. right.
        destruct (Hbook _ _ _ Hb) as [Hr|Hexp];
          [|unfold lock_duration in *; lra].
        pose proof (proj1 (scan_None _ _ _ _) Hscan e He) as Hfree.
        destruct (proj1 (blocking_None _ _ _) Hfree x t0 Hr) as [->|Hge];
          [done|].
        unfold lock_duration in *. lra.
      * rewrite (bool_decide_eq_false_2 _ He).
        rewrite bool_decide_eq_false_2 by (by intros [_ ?]).
        intros Hb. destruct (Hbook _ _ _ Hb) as [Hr|Hexp]; [by left|].
        right. unfold lock_duration in *. lra.
Qed.

Lemma book_inv_release s a v :
  book_inv s → book_inv (step s (Release a v)).
Proof.
  intros [Htab Hbook]. cbn [step]. split; cbn [tm book clock].
  - intros e x tx. rewrite release_path_reservation.
    destruct (reservation (tm s) e) as [[h t0]|] eqn:Hr; [|done].
    destruct (given_up a v (h, e)) eqn:Hg; [done|]. intros [= <- <-].
    apply map_lookup_filter_Some. split; [by apply Htab|done].
  - intros x e t0 [Hb Hkeep]%map_lookup_filter_Some. cbn [fst] in Hkeep.
    destruct (Hbook _ _ _ Hb) as [Hr|Hexp]; [left|by right].
    by rewrite release_path_reservation, Hr, Hkeep.
Qed.

Lemma reachable_book_inv s : reachable s → book_inv s.
Proof.
  induction 1 as [c0|s ev _ IH].
  - apply book_inv_init.
  - destruct ev; [by apply book_inv_request|by apply book_inv_release].
Qed.

(** C1 (mutual exclusion of leases).  In every state reached through
    [request_path] and [release_path]: every reservation in the table is the
    current lease of its holder, and at any time [t] not earlier than the
    clock readings seen so far, no vertex and no directed edge is leased to
    two distinct agents with both leases unexpired at [t]. *)
Theorem lease_mutual_exclusion s :
  reachable s →
  (∀ e a ta, reservation (tm s) e = Some (a, ta) →
             book s !! (a, e) = Some ta) ∧
  (∀ (t : Q) e a b ta tb,
     (clock s <= t)%Q →
     book s !! (a, e) = Some ta → book s !! (b, e) = Some tb →
     unexpired ta t → unexpired tb t → a = b).
Proof.
  intros [Htab Hbook]%reachable_book_inv. split; [done|].
  intros t e a b ta tb Ht Ha Hb La Lb. unfold unexpired, lock_duration in *.
  destruct (Hbook _ _ _ Ha) as [Ra|Ea];
    [|unfold lock_duration in *; lra].
  destruct (Hbook _ _ _ Hb) as [Rb|Eb];
    [|unfold lock_duration in *; lra].
  congruence.
Qed.

Example takeover_book :
  book takeover !! (1, inl 1) = Some 0%Q ∧
  book takeover !! (2, inl 1) = Some 6%Q ∧
  reservation (tm takeover) (inl 1) = Some (2, 6%Q).
Proof. by vm_compute. Qed.

(** In the takeover run the lease of robot 2 on vertex 1 is in the book,
    and at time 7 the leases of robots 1 and 2 on vertex 1 are not both
    unexpired. *)
Lemma lease_mutual_exclusion_witness :
  reachable takeover ∧
  book takeover !! (2, inl 1) = Some 6%Q ∧
  (unexpired 0 7 → unexpired 6 7 → 1 = 2).
Proof.
  assert (reachable takeover) as Hreach.
  { apply reachable_step, reachable_step, reachable_init. }
  destruct (lease_mutual_exclusion takeover Hreach) as [Htab Hexcl].
  split_and!; [done| |].
  - by apply Htab.
  - apply (Hexcl 7%Q (inl 1) 1 2 0%Q 6%Q); by vm_compute.
Defined.

End MutualExclusion.

(** ** The agent state machine: one call of [update_position] *)

Section Progress.

Import Robot.

Variable delta_time : Q.
Variable get_vertex_pos : Z → Q * Q.

Local Abbreviation update := (update_position delta_time get_vertex_pos).

(** The last call: the cursor is on the last vertex of the path. *)
Lemma update_position_final r tv :
  status r = MOVING → path r ≠ [] →
  (length (path r) - 1 <= current_edge_index r)%nat →
  target_vertex r = Some tv →
  ∃ r', update r = Some r' ∧ status r' = TASK_COMPLETE ∧
        current_vertex r' = tv ∧ target_vertex r' = Some tv ∧
        (current_x r', current_y r') = get_vertex_pos tv.
Proof.
  intros Hs Hp Hi Ht. unfold update_position.
  rewrite Hs, (bool_decide_eq_false_2 (MOVING ≠ MOVING)) by (intros H; done).
  rewrite (bool_decide_eq_false_2 _ Hp). cbn [orb].
  rewrite (proj2 (Nat.leb_le _ _) Hi), Ht.
  eexists. split; [done|]. cbn. split_and!; try done.
  by destruct (get_vertex_pos tv).
Qed.

(** A call in the middle of an edge: the robot keeps moving, and crosses to
    the next edge exactly when the accumulated progress reaches 1. *)
Lemma update_position_edge r :
  status r = MOVING →
  (current_edge_index r < length (path r) - 1)%nat →
  ∃ r', update r = Some r' ∧ status r' = MOVING ∧ path r' = path r ∧
        target_vertex r' = target_vertex r ∧ move_speed r' = move_speed r ∧
        (if Qle_bool 1 (move_progress r + move_speed r * delta_time)
         then current_edge_index r' = S (current_edge_index r)
         else current_edge_index r' = current_edge_index r ∧
              move_progress r' =
                (move_progress r + move_speed r * delta_time)%Q).
Proof.
  intros Hs Hi. unfold update_position.
  rewrite Hs, (bool_decide_eq_false_2 (MOVING ≠ MOVING)) by (intros H; done).
  assert (path r ≠ []) as Hp by (destruct (path r); [cbn in Hi; lia|done]).
  rewrite (bool_decide_eq_false_2 _ Hp). cbn [orb].
  rewrite (proj2 (Nat.leb_gt _ _)) by lia.
  destruct (lookup_lt_is_Some_2 (path r) (current_edge_index r)) as [a Ha];
    [lia|].
  destruct (lookup_lt_is_Some_2 (path r) (S (current_edge_index r)))
    as [b Hb]; [lia|].
  rewrite Ha, Hb.
  destruct (Qle_bool 1 (move_progress r + move_speed r * delta_time)) eqn:Ec;
    cbn [andb].
  - destruct (S (current_edge_index r) <? length (path r) - 1)%nat eqn:El.
    + apply Nat.ltb_lt in El.
      destruct (lookup_lt_is_Some_2 (path r) (S (S (current_edge_index r))))
        as [c Hc]; [lia|].
      rewrite Hb, Hc. eexists. split; [done|]. by cbn.
    + eexists. split; [done|]. by cbn.
  - eexists. split; [done|]. by cbn.
Qed.

End Progress.

(** ** The agent state machine in binary64: progress along a path *)

Section Arrival64.

Import Robot64.

Variable delta_time : float.
Variable get_vertex_pos : Z → float * float.

Local Abbreviation update64 := (update_position delta_time get_vertex_pos).
Local Abbreviation run64 n := (advance n delta_time get_vertex_pos).
Local Abbreviation still_moving64 n r :=
  (moving_until64 delta_time get_vertex_pos n r).

Lemma advance64_add n1 n2 r r1 :
  run64 n1 r = Some r1 → run64 (n1 + n2) r = run64 n2 r1.
Proof.
  revert r. induction n1 as [|n1 IH]; intros r; cbn [advance Nat.add].
  - by intros [= ->].
  - destruct (update64 r) as [r0|]; [apply IH|done].
Qed.

(** The last call: the cursor is on the last vertex of the path. *)
Lemma update64_final r tv :
  status r = Robot.MOVING → path r ≠ [] →
  (length (path r) - 1 <= current_edge_index r)%nat →
  target_vertex r = Some tv →
  ∃ r', update64 r = Some r' ∧ status r' = Robot.TASK_COMPLETE ∧
        current_vertex r' = tv ∧ target_vertex r' = Some tv ∧
        (current_x r', current_y r') = get_vertex_pos tv.
Proof.
  intros Hs Hp Hi Ht. unfold update_position.
  rewrite Hs, (bool_decide_eq_false_2 (Robot.MOVING ≠ Robot.MOVING))
    by (intros H; done).
  rewrite (bool_decide_eq_false_2 _ Hp). cbn [orb].
  rewrite (proj2 (Nat.leb_le _ _) Hi), Ht.
  eexists. split; [done|]. cbn. split_and!; try done.
  by destruct (get_vertex_pos tv).
Qed.

(** A call in the middle of an edge adds [move_speed * delta_time] to the
    progress, and completes the edge exactly when the sum is at least 1. *)
Lemma update64_edge r :
  status r = Robot.MOVING →
  (current_edge_index r < length (path r) - 1)%nat →
  ∃ r', update64 r = Some r' ∧ status r' = Robot.MOVING ∧
        path r' = path r ∧ target_vertex r' = target_vertex r ∧
        move_speed r' = move_speed r ∧
        let progress := PrimFloat.add (move_progress r)
                          (PrimFloat.mul (move_speed r) delta_time) in
        if PrimFloat.leb 1 progress
        then current_edge_index r' = S (current_edge_index r) ∧
             move_progress r' = 0%float
        else current_edge_index r' = current_edge_index r ∧
             move_progress r' = progress.
Proof.
  intros Hs Hi. unfold update_position.
  rewrite Hs, (bool_decide_eq_false_2 (Robot.MOVING ≠ Robot.MOVING))
    by (intros H; done).
  assert (path r ≠ []) as Hp by (destruct (path r); [cbn in Hi; lia|done]).
  rewrite (bool_decide_eq_false_2 _ Hp). cbn [orb].
  rewrite (proj2 (Nat.leb_gt _ _)) by lia.
  destruct (lookup_lt_is_Some_2 (path r) (current_edge_index r)) as [a Ha];
    [lia|].
  destruct (lookup_lt_is_Some_2 (path r) (S (current_edge_index r)))
    as [b Hb]; [lia|].
  rewrite Ha, Hb. cbv zeta.
  destruct (PrimFloat.leb 1 _) eqn:Ec; cbn [andb].
  - destruct (S (current_edge_index r) <? length (path r) - 1)%nat eqn:El.
    + apply Nat.ltb_lt in El.
      destruct (lookup_lt_is_Some_2 (path r) (S (S (current_edge_index r))))
        as [c Hc]; [lia|].
      rewrite Hb, Hc. eexists. split; [done|]. by cbn.
    + eexists. split; [done|]. by cbn.
  - eexists. split; [done|]. by cbn.
Qed.

Lemma still_moving64_add n1 n2 r r1 :
  still_moving64 n1 r → run64 n1 r = Some r1 → still_moving64 n2 r1 →
  still_moving64 (n1 + n2) r.
Proof.
  intros H1 Hrun H2 k Hk. destruct (decide (k < n1)%nat) as [Hlt|Hge].
  - by apply H1.
  - replace k with (n1 + (k - n1))%nat by lia.
    rewrite (advance64_add _ _ _ _ Hrun). apply H2. lia.
Qed.

Lemma still_moving64_one r : status r = Robot.MOVING → still_moving64 1 r.
Proof.
  intros Hs k Hk. assert (k = 0%nat) as -> by lia. by exists r.
Qed.

(** If [K] additions starting from the progress [p] reach 1, the current
    edge is completed within [K] calls; [j] additions have been made. *)
Lemma edge64_done (p : float) (K m : nat) : ∀ (j : nat) r,
  (K - S j = m)%nat → (j < K)%nat →
  status r = Robot.MOVING →
  (current_edge_index r < length (path r) - 1)%nat →
  move_progress r = accumulated p (PrimFloat.mul (move_speed r) delta_time) j →
  PrimFloat.leb 1
    (accumulated p (PrimFloat.mul (move_speed r) delta_time) K) = true →
  ∃ n r', (1 <= n <= K - j)%nat ∧ run64 n r = Some r' ∧ still_moving64 n r ∧
          status r' = Robot.MOVING ∧ path r' = path r ∧
          target_vertex r' = target_vertex r ∧
          move_speed r' = move_speed r ∧
          current_edge_index r' = S (current_edge_index r) ∧
          move_progress r' = 0%float.
Proof.
  induction m as [|m IH]; intros j r Hm Hj Hs Hi Hp HK;
    destruct (update64_edge r Hs Hi)
      as (r1 & Hu & Hs1 & Hp1 & Ht1 & Hv1 & Hcase);
    cbv zeta in Hcase; rewrite Hp in Hcase;
    change (PrimFloat.add
              (accumulated p (PrimFloat.mul (move_speed r) delta_time) j)
              (PrimFloat.mul (move_speed r) delta_time))
      with (accumulated p (PrimFloat.mul (move_speed r) delta_time) (S j))
      in Hcase;
    destruct (PrimFloat.leb 1
                (accumulated p (PrimFloat.mul (move_speed r) delta_time)
                   (S j))) eqn:Ec.
  - destruct Hcase as [Hi1 Hm1]. exists 1%nat, r1. cbn [advance]. rewrite Hu.
    split_and!; try done; [lia..|by apply still_moving64_one].
  - exfalso. assert (S j = K) as HjK by lia. rewrite HjK in Ec. congruence.
  - destruct Hcase as [Hi1 Hm1]. exists 1%nat, r1. cbn [advance]. rewrite Hu.
    split_and!; try done; [lia..|by apply still_moving64_one].
  - destruct Hcase as [Hi1 Hm1].
    assert (S j ≠ K) as HjK by (intros E; rewrite E in Ec; congruence).
    destruct (IH (S j) r1) as
      (n & r' & Hn & Hrun & Hmov & Hs' & Hp' & Ht' & Hv' & Hi' & Hm');
      [lia|lia|done|by rewrite Hi1, Hp1|by rewrite Hv1|by rewrite Hv1|].
    exists (S n), r'. cbn [advance]. rewrite Hu.
    split_and!; try congruence; [lia..|].
    change (S n) with (1 + n)%nat.
    apply (still_moving64_add 1 n r r1);
      [by apply still_moving64_one| |done].
    cbn [advance]. by rewrite Hu.
Qed.

(** Finitely many calls finish the path. *)
Lemma path64_done (K m : nat) : ∀ r tv,
  status r = Robot.MOVING → path r ≠ [] → target_vertex r = Some tv →
  (length (path r) - 1 - current_edge_index r = m)%nat →
  PrimFloat.leb 1
    (accumulated (move_progress r)
       (PrimFloat.mul (move_speed r) delta_time) K) = true →
  PrimFloat.leb 1
    (accumulated 0 (PrimFloat.mul (move_speed r) delta_time) K) = true →
  ∃ n r', (n <= m * K)%nat ∧ run64 (S n) r = Some r' ∧
          still_moving64 (S n) r ∧
          status r' = Robot.TASK_COMPLETE ∧ current_vertex r' = tv ∧
          target_vertex r' = Some tv ∧
          (current_x r', current_y r') = get_vertex_pos tv.
Proof.
  induction m as [|m IH]; intros r tv Hs Hp Ht Hm HK HK0.
  - destruct (update64_final r tv Hs Hp) as (r' & Hu & H'); [lia|done|].
    exists 0%nat, r'. cbn [advance]. rewrite Hu.
    split_and!; try apply H'; [lia|done|by apply still_moving64_one].
  - assert (K ≠ 0%nat) as HKpos.
    { intros ->. cbn [accumulated] in HK0. by vm_compute in HK0. }
    destruct (edge64_done (move_progress r) K (K - 1) 0 r) as
      (n1 & r1 & Hn1 & Hrun1 & Hmov1 & Hs1 & Hp1 & Ht1 & Hv1 & Hi1 & Hm1);
      [lia|lia|done|lia|done|done|].
    destruct (IH r1 tv) as (n2 & r' & Hn2 & Hrun2 & Hmov2 & H');
      [done|congruence|congruence|rewrite Hp1, Hi1; lia
      |by rewrite Hm1, Hv1|by rewrite Hv1|].
    exists (n1 + n2)%nat, r'.
    replace (S (n1 + n2)) with (n1 + S n2)%nat by lia.
    split_and!; try apply H'.
    + cbn. nia.
    + by rewrite (advance64_add _ _ _ _ Hrun1).
    + by apply (still_moving64_add n1 (S n2) r r1).
Qed.

(** Once the task is complete, further calls change nothing. *)
Lemma advance64_complete n r :
  status r = Robot.TASK_COMPLETE → run64 n r = Some r.
Proof.
  intros Hs. induction n as [|n IH]; [done|]. cbn [advance].
  unfold update_position. rewrite Hs.
  by rewrite (bool_decide_eq_true_2 (Robot.TASK_COMPLETE ≠ Robot.MOVING)).
Qed.

(** C7 (progress termination with exact arrival, amended).  Let [c] be the
    float [move_speed * delta_time].  If [K] additions of [c] carry the
    progress of the current edge from its present value to at least 1, and
    [K] additions of [c] carry it from 0 to at least 1, then a robot in
    status MOVING with a non-empty path and a target is still MOVING before
    each of the first [n] calls of [update_position] for some
    [n <= remaining edges * K + 1], and the [n]-th call leaves it in status
    TASK_COMPLETE with [current_vertex] equal to the target and its position
    equal to the coordinates the graph gives for the target vertex; further
    calls change nothing. *)
Theorem moving_robot_reaches_target r tv (K : nat) :
  status r = Robot.MOVING → path r ≠ [] → target_vertex r = Some tv →
  PrimFloat.leb 1
    (accumulated (move_progress r)
       (PrimFloat.mul (move_speed r) delta_time) K) = true →
  PrimFloat.leb 1
    (accumulated 0 (PrimFloat.mul (move_speed r) delta_time) K) = true →
  ∃ n r',
    (n <= (length (path r) - 1 - current_edge_index r) * K + 1)%nat ∧
    advance n delta_time get_vertex_pos r = Some r' ∧
    (∀ k, (k < n)%nat →
       ∃ rk, advance k delta_time get_vertex_pos r = Some rk ∧
             status rk = Robot.MOVING) ∧
    status r' = Robot.TASK_COMPLETE ∧
    current_vertex r' = tv ∧ target_vertex r' = Some tv ∧
    (current_x r', current_y r') = get_vertex_pos tv ∧
    ∀ m, advance m delta_time get_vertex_pos r' = Some r'.
Proof.
  intros Hs Hp Ht HK HK0.
  destruct (path64_done K _ r tv Hs Hp Ht eq_refl HK HK0)
    as (n & r' & Hn & Hrun & Hmov & Hs' & Hcv & Ht' & Hpos).
  exists (S n), r'. split_and!; try done; [lia|].
  intros m. by apply advance64_complete.
Qed.

End Arrival64.

(** C7, as stated, fails: positive speed and positive [delta_time] do not
    make the progress grow.  A robot half way along the edge 1-2, with the
    speed [0.05] of every robot, is advanced with [delta_time = 1e-16]: the
    sum [0.5 + 0.05 * 1e-16] rounds to [0.5], every call returns the robot
    as it was, and no number of calls ends in TASK_COMPLETE. *)
Lemma tiny_step_never_arrives :
  ∃ r, half_way = Some r ∧
       Robot64.status r = Robot.MOVING ∧ Robot64.path r = [1; 2] ∧
       Robot64.target_vertex r = Some 2 ∧
       PrimFloat.ltb 0 (Robot64.move_speed r) = true ∧
       PrimFloat.ltb 0 tiny_delta = true ∧
       Robot64.update_position tiny_delta line_position64 r = Some r ∧
       ¬ eventually_complete tiny_delta line_position64 r.
Proof.
  eexists. split; [by vm_compute|].
  assert (∀ r, Robot64.update_position tiny_delta line_position64 r = Some r →
               ∀ k, Robot64.advance k tiny_delta line_position64 r = Some r)
    as Hfix.
  { intros r Hu. induction k as [|k IH]; [done|].
    cbn [Robot64.advance]. by rewrite Hu. }
  do 6 (split; [by vm_compute|]).
  intros (n & r' & Hrun & Hs).
  rewrite Hfix in Hrun by by vm_compute.
  injection Hrun as <-. done.
Qed.

(** The robot started on 1-2-3 with speed [0.05] and ticks of [0.1]: 200
    additions of [0.05 * 0.1] reach 1, and the robot arrives at vertex 3
    within 401 calls. *)
Lemma moving_robot_reaches_target_witness :
  ∃ n r', (n <= 401)%nat ∧
          Robot64.advance n tick_delta line_position64 started_robot64
          = Some r' ∧
          Robot64.status r' = Robot.TASK_COMPLETE ∧
          Robot64.current_vertex r' = 3 ∧
          (Robot64.current_x r', Robot64.current_y r') = line_position64 3.
Proof.
  destruct (moving_robot_reaches_target tick_delta line_position64
              started_robot64 3 200)
    as (n & r' & Hn & Hrun & _ & Hs & Hv & _ & Hpos & _);
    [reflexivity|done|reflexivity|by vm_compute|by vm_compute|].
  exists n, r'. by split_and!.
Defined.

(** ** The agent state machine: reachable states *)

Section AgentInvariant.

Import Robot.

(** C6, as stated, fails: [set_blocked] changes the status and [blocked_by]
    only, so a robot that is denied its first task is BLOCKED without a
    target. *)
Lemma blocked_robot_without_target :
  robot_reachable denied_first_task ∧
  status denied_first_task = BLOCKED ∧
  target_vertex denied_first_task = None ∧
  ¬ state_invariant denied_first_task.
Proof.
  split_and!; [|done|done|].
  - apply (reachable_robot_step _ _ (reachable_spawn 2 1 0 0)).
    apply step_set_blocked.
  - intros [_ [_ H]]. destruct H as [x Hx]; [|done]. right. by left.
Qed.

(** What one call of [update_position] can do. *)
Lemma update_position_cases delta_time get_vertex_pos r r' :
  update_position delta_time get_vertex_pos r = Some r' →
  r' = r ∨
  (status r = MOVING ∧ path r ≠ [] ∧ status r' = TASK_COMPLETE ∧
   path r' = path r ∧ is_Some (target_vertex r')) ∨
  (status r = MOVING ∧ status r' = MOVING ∧ path r' = path r ∧
   target_vertex r' = target_vertex r ∧
   (current_edge_index r' < length (path r))%nat).
Proof.
  intros Hu.
  destruct (decide (status r = MOVING)) as [Hs|Hs].
  2:{ left. unfold update_position in Hu.
      rewrite (bool_decide_eq_true_2 _ Hs) in Hu. cbn in Hu. congruence. }
  destruct (decide (path r = [])) as [Hp|Hp].
  { left. unfold update_position in Hu.
    rewrite (bool_decide_eq_true_2 _ Hp), orb_true_r in Hu. congruence. }
  destruct (decide (length (path r) - 1 <= current_edge_index r)%nat)
    as [Hi|Hi].
  - right. left. destruct (target_vertex r) as [tv|] eqn:Ht.
    + destruct (update_position_final delta_time get_vertex_pos r tv
                  Hs Hp Hi Ht) as (r1 & Hu1 & Hs1 & _ & Ht1 & _).
      assert (r1 = r') as -> by congruence.
      split_and!; try done.
      unfold update_position in Hu.
      rewrite Hs, (bool_decide_eq_false_2 (MOVING ≠ MOVING)) in Hu
        by (intros H; done).
      rewrite (bool_decide_eq_false_2 _ Hp) in Hu. cbn [orb] in Hu.
      rewrite (proj2 (Nat.leb_le _ _) Hi), Ht in Hu.
      by injection Hu as <-.
    + unfold update_position in Hu.
      rewrite Hs, (bool_decide_eq_false_2 (MOVING ≠ MOVING)) in Hu
        by (intros H; done).
      rewrite (bool_decide_eq_false_2 _ Hp) in Hu. cbn [orb] in Hu.
      by rewrite (proj2 (Nat.leb_le _ _) Hi), Ht in Hu.
  - right. right.
    destruct (update_position_edge delta_time get_vertex_pos r Hs)
      as (r1 & Hu1 & Hs1 & Hp1 & Ht1 & _ & Hcase); [lia|].
    assert (r1 = r') as -> by congruence.
    split_and!; try done.
    destruct (Qle_bool 1 _); [|destruct Hcase as [Hc _]]; lia.
Qed.

(** [cancel_task] never returns with a changed orchestrator. *)
Lemma cancel_task_return fm k fm' ret :
  FleetManager.cancel_task fm k = FleetManager.Return fm' ret →
  fm' = fm ∧ ret = false.
Proof.
  unfold FleetManager.cancel_task.
  destruct (FleetManager.dict_get k (FleetManager.robots fm)) as [r|];
    [|by intros [= <- <-]].
  destruct (status r); cbn; try by intros [= <- <-].
  all: done.
Qed.

(** C6 (agent state invariant, amended).  In every state a robot reaches by
    spawn, [start_task], [update_position], [set_blocked] and [cancel_task]:
    a MOVING robot has a non-empty path, a cursor that is a valid index of
    the path, and a target; a TASK_COMPLETE robot still has its path and its
    target; an IDLE robot has neither; and the status is never WAITING.
    Nothing is claimed about the target of a BLOCKED robot. *)
Theorem robot_state_invariant r :
  robot_reachable r →
  (status r = MOVING →
     path r ≠ [] ∧ (current_edge_index r < length (path r))%nat ∧
     is_Some (target_vertex r)) ∧
  (status r = TASK_COMPLETE → path r ≠ [] ∧ is_Some (target_vertex r)) ∧
  (status r = IDLE → path r = [] ∧ target_vertex r = None) ∧
  status r ≠ WAITING.
Proof.
  induction 1 as [id v x y|r r' _ IH Hstep].
  { cbn. split_and!; done. }
  destruct IH as (Hmov & Hdone & Hidle & Hwait).
  destruct Hstep as [r target p start_pos Hp|r dt gvp r' Hu|r b
                    |fm k r fm' ret r' Hr Hc Hr'].
  - cbn. split_and!; try done. intros _. split_and!; [done| |by eexists].
    destruct p; [done|cbn; lia].
  - destruct (update_position_cases _ _ _ _ Hu)
      as [->|[(Hs & Hp & Hs' & Hp' & Ht')|(Hs & Hs' & Hp' & Ht' & Hi')]].
    + done.
    + rewrite Hs', Hp'. split_and!; done.
    + rewrite Hs', Hp', Ht'. destruct (Hmov Hs) as (? & ? & ?).
      split_and!; done.
  - cbn. split_and!; done.
  - destruct (cancel_task_return _ _ _ _ Hc) as [-> _].
    assert (r' = r) as -> by congruence. done.
Qed.

End AgentInvariant.

(** The robot started on 1-2-3 is reachable and MOVING. *)
Lemma robot_state_invariant_witness :
  Robot.path started_robot ≠ [] ∧
  (Robot.current_edge_index started_robot
   < length (Robot.path started_robot))%nat ∧
  is_Some (Robot.target_vertex started_robot).
Proof.
  apply (robot_state_invariant started_robot); [|done].
  apply (reachable_robot_step _ _ (reachable_spawn 1 1 0 0)).
  by apply (step_start_task _ 3 [1; 2; 3] (line_position 1)).
Defined.

(** ** The orchestrator: assignment, cancellation, the tick *)

Section OrchestratorFacts.

Import FleetManager TrafficManager Leases.

Lemma dict_get_set_eq k v d : dict_get k (dict_set k v d) = Some v.
Proof.
  induction d as [|[k' v'] d IH]; cbn [dict_set dict_get].
  - by rewrite Z.eqb_refl.
  - destruct (Z.eqb_spec k' k) as [->|Hne]; cbn [dict_get].
    + by rewrite Z.eqb_refl.
    + by destruct (Z.eqb_spec k' k).
Qed.

Lemma dict_get_set_ne k j v d :
  j ≠ k → dict_get j (dict_set k v d) = dict_get j d.
Proof.
  intros Hne. induction d as [|[k' v'] d IH]; cbn [dict_set dict_get].
  - by destruct (Z.eqb_spec k j) as [->|].
  - destruct (Z.eqb_spec k' k) as [->|Hk]; cbn [dict_get].
    + by destruct (Z.eqb_spec k j) as [->|].
    + by rewrite IH.
Qed.

Variable nav_graph : NavGraph.

(** The call of [assign_task] for an eligible agent with a path. *)
Lemma assign_task_request fm k target now r :
  dict_get k (robots fm) = Some r →
  Robot.status r = Robot.IDLE ∨ Robot.status r = Robot.TASK_COMPLETE →
  get_shortest_path nav_graph (Robot.current_vertex r) target ≠ [] →
  assign_task nav_graph fm k target now =
  let path := get_shortest_path nav_graph (Robot.current_vertex r) target in
  let '(tm, (can_move, blocking_robot)) :=
    request_path (traffic_manager fm) k now path in
  if can_move then
    (with_robot (with_traffic fm tm) k
       (Robot.start_task target path
          (get_vertex_position nav_graph (Robot.current_vertex r)) r),
     true)
  else
    (with_robot (with_traffic fm tm) k
       (Robot.set_blocked blocking_robot r), false).
Proof.
  intros Hr Hs Hp. unfold assign_task. rewrite Hr. cbv zeta.
  destruct (get_shortest_path nav_graph (Robot.current_vertex r) target)
    as [|v0 path0]; [done|].
  by destruct Hs as [-> | ->].
Qed.

(** C9 (assign failure semantics).  [assign_task] returns [false] and leaves
    the whole orchestrator, the agent included, exactly as it was when the
    agent id is unknown, when the agent is neither IDLE nor TASK_COMPLETE,
    or when the graph has no path to the target.  For an IDLE or
    TASK_COMPLETE agent with a path:
    - if an element of the path holds a live reservation of another agent
      (held by another id, [now - t0 < 5]), and [e], held by [h], is the
      first such element, the call returns [false], the agent's status
      becomes BLOCKED and its [blocked_by] becomes [h], its other attributes
      stay as they were, the lock tables are unchanged, the agent waits at
      the vertex of [e], and the other agents are untouched;
    - if no element of the path holds a live reservation of another agent,
      the call returns [true] and the agent is MOVING towards the target.
    Conversely, a call that returns [false] and leaves the agent different
    from what it was is a denial by contention: the agent was eligible, had
    a path, and is now BLOCKED by the holder of the first live element of
    that path. *)
Theorem assign_task_failure_semantics fm k target now :
  (dict_get k (robots fm) = None →
   assign_task nav_graph fm k target now = (fm, false)) ∧
  (∀ r, dict_get k (robots fm) = Some r →
     (Robot.status r ≠ Robot.IDLE → Robot.status r ≠ Robot.TASK_COMPLETE →
      assign_task nav_graph fm k target now = (fm, false)) ∧
     (get_shortest_path nav_graph (Robot.current_vertex r) target = [] →
      assign_task nav_graph fm k target now = (fm, false)) ∧
     (Robot.status r = Robot.IDLE ∨ Robot.status r = Robot.TASK_COMPLETE →
      get_shortest_path nav_graph (Robot.current_vertex r) target ≠ [] →
      (∀ e h t0,
         first_live_foreign (traffic_manager fm) k now
           (get_shortest_path nav_graph (Robot.current_vertex r) target)
           e h t0 →
         (assign_task nav_graph fm k target now).2 = false ∧
         (∃ r', dict_get k (robots (assign_task nav_graph fm k target now).1)
                = Some r' ∧
                Robot.status r' = Robot.BLOCKED ∧
                Robot.blocked_by r' = Some h ∧
                blocked_by_holder h r r') ∧
         vertex_locks (traffic_manager
                         (assign_task nav_graph fm k target now).1)
         = vertex_locks (traffic_manager fm) ∧
         edge_locks (traffic_manager
                       (assign_task nav_graph fm k target now).1)
         = edge_locks (traffic_manager fm) ∧
         k ∈ get_waiting_robots
               (traffic_manager (assign_task nav_graph fm k target now).1)
               (source e)) ∧
      ((∀ e h t0,
          e ∈ path_elems
                (get_shortest_path nav_graph (Robot.current_vertex r) target) →
          reservation (traffic_manager fm) e = Some (h, t0) →
          h = k ∨ (5 <= now - t0)%Q) →
       (assign_task nav_graph fm k target now).2 = true ∧
       ∃ r', dict_get k (robots (assign_task nav_graph fm k target now).1)
             = Some r' ∧
             Robot.status r' = Robot.MOVING ∧
             Robot.target_vertex r' = Some target ∧
             Robot.blocked_by r' = Robot.blocked_by r) ∧
      (∀ j, j ≠ k →
         dict_get j (robots (assign_task nav_graph fm k target now).1) =
         dict_get j (robots fm))) ∧
     (∀ r', (assign_task nav_graph fm k target now).2 = false →
        dict_get k (robots (assign_task nav_graph fm k target now).1)
        = Some r' →
        r' ≠ r →
        (Robot.status r = Robot.IDLE ∨ Robot.status r = Robot.TASK_COMPLETE) ∧
        get_shortest_path nav_graph (Robot.current_vertex r) target ≠ [] ∧
        ∃ e h t0,
          first_live_foreign (traffic_manager fm) k now
            (get_shortest_path nav_graph (Robot.current_vertex r) target)
            e h t0 ∧
          Robot.status r' = Robot.BLOCKED ∧
          Robot.blocked_by r' = Some h ∧
          blocked_by_holder h r r')).
Proof.
  split.
  { intros Hk. unfold assign_task. by rewrite Hk. }
  intros r Hr.
  set (path := get_shortest_path nav_graph (Robot.current_vertex r) target).
  assert (Robot.status r ≠ Robot.IDLE →
          Robot.status r ≠ Robot.TASK_COMPLETE →
          assign_task nav_graph fm k target now = (fm, false)) as Hstatus.
  { intros H1 H2. unfold assign_task. rewrite Hr.
    by destruct (Robot.status r). }
  assert (path = [] → assign_task nav_graph fm k target now = (fm, false))
    as Hnopath.
  { intros Hp. unfold assign_task. rewrite Hr. fold path. rewrite Hp.
    by destruct (Robot.status r). }
  assert (∀ e h t0,
            Robot.status r = Robot.IDLE ∨
            Robot.status r = Robot.TASK_COMPLETE →
            path ≠ [] →
            first_live_foreign (traffic_manager fm) k now path e h t0 →
            assign_task nav_graph fm k target now =
            (with_robot
               (with_traffic fm
                  (TrafficManager.mk (vertex_locks (traffic_manager fm))
                     (edge_locks (traffic_manager fm))
                     (enqueue k (source e)
                        (waiting_queues (traffic_manager fm)))))
               k (Robot.set_blocked (Some h) r), false)) as Hdenied.
  { intros e h t0 Hs Hp Hf.
    rewrite (assign_task_request fm k target now r Hr Hs Hp). cbv zeta.
    fold path.
    by rewrite (request_path_denied _ _ _ _ _ _
                  (scan_first _ _ _ _ _ _ _ Hf)). }
  assert (∀ h, blocked_by_holder h r (Robot.set_blocked (Some h) r))
    as Hblocked.
  { intros h. by repeat split. }
  split; [done|]. split; [done|]. split.
  - intros Hs Hp. split; [|split].
    + intros e h t0 Hf. rewrite (Hdenied e h t0 Hs Hp Hf).
      cbn [fst snd with_robot with_traffic robots traffic_manager
           vertex_locks edge_locks].
      split; [done|]. split.
      { exists (Robot.set_blocked (Some h) r).
        split; [apply dict_get_set_eq|]. split; [done|]. split; [done|].
        apply Hblocked. }
      split; [done|]. split; [done|].
      rewrite enqueue_waiting. case_bool_decide; [done|].
      apply elem_of_app. right. by apply list_elem_of_singleton.
    + intros Hall.
      assert (scan (traffic_manager fm) k now path = None) as Hscan.
      { apply scan_free. intros e He (h & t0 & Hres & Hne & Hl).
        destruct (Hall e h t0 He Hres) as [?|?]; [done|lra]. }
      rewrite (assign_task_request fm k target now r Hr Hs Hp). cbv zeta.
      fold path.
      destruct (request_path_granted _ _ _ _ Hscan) as (Hres & _).
      destruct (request_path (traffic_manager fm) k now path)
        as [tm [can_move blocking_robot]].
      cbn [snd] in Hres. injection Hres as -> ->.
      cbn [fst snd with_robot robots]. split; [done|].
      eexists. split; [apply dict_get_set_eq|]. done.
    + intros j Hj.
      rewrite (assign_task_request fm k target now r Hr Hs Hp). cbv zeta.
      destruct (request_path _ _ _ _) as [tm [[] blocking_robot]];
        cbn [fst with_robot robots with_traffic];
        by apply dict_get_set_ne.
  - intros r' Hret Hr' Hne.
    destruct (decide (Robot.status r = Robot.IDLE ∨
                      Robot.status r = Robot.TASK_COMPLETE)) as [Hs|Hs].
    2:{ rewrite Hstatus in Hr' by tauto. cbn in Hr'. congruence. }
    destruct (decide (path = [])) as [Hp|Hp].
    { rewrite (Hnopath Hp) in Hr'. cbn in Hr'. congruence. }
    split; [done|]. split; [done|].
    destruct (scan (traffic_manager fm) k now path) as [[v h]|] eqn:Hscan.
    + destruct (scan_Some_first _ _ _ _ _ _ Hscan) as (e & t0 & -> & Hf).
      exists e, h, t0. split; [done|].
      rewrite (Hdenied e h t0 Hs Hp Hf) in Hr'.
      cbn [fst with_robot robots] in Hr'. rewrite dict_get_set_eq in Hr'.
      injection Hr' as <-. split; [done|]. split; [done|]. apply Hblocked.
    + exfalso.
      rewrite (assign_task_request fm k target now r Hr Hs Hp) in Hret.
      cbv zeta in Hret. fold path in Hret.
      destruct (request_path_granted _ _ _ _ Hscan) as (Hres & _).
      destruct (request_path (traffic_manager fm) k now path)
        as [tm [can_move blocking_robot]].
      cbn [snd] in Hres. injection Hres as -> ->. done.
Qed.

End OrchestratorFacts.

(** Robot 1 has been granted 1-2-3 at time 0; robot 2, at vertex 2, is sent
    to vertex 1 at the same time: vertex 2 is leased to robot 1, the call
    returns [false] and leaves robot 2 BLOCKED by robot 1. *)
Lemma assign_task_failure_semantics_witness :
  (FleetManager.assign_task line_graph one_moving 2 1 0).2 = false ∧
  ∃ r', FleetManager.dict_get 2 (FleetManager.robots one_moving_one_blocked)
        = Some r' ∧
        Robot.status r' = Robot.BLOCKED ∧ Robot.blocked_by r' = Some 1.
Proof.
  destruct (proj2 (assign_task_failure_semantics line_graph one_moving 2 1 0)
              (FleetManager.with_position (inject_Z 2) 0 (Robot.__init__ 2 2))
              eq_refl)
    as (_ & _ & Hrun & _).
  destruct Hrun as (Hdenied & _ & _); [by left|done|].
  destruct (Hdenied (inl 2) 1 0%Q) as (Hret & (r' & Hr' & Hs & Hb & _) & _).
  { split; [|by vm_compute].
    exists [], [inr (2, 1)]. split; [done|].
    intros e' He'. by apply elem_of_nil in He'. }
  split; [exact Hret|]. by exists r'.
Defined.

(** ** A fleet on a line graph *)

Section Scenarios.

Import FleetManager.

(** [cancel_task] on a MOVING or WAITING robot stops at the call of
    [release_path], before anything is changed. *)
Lemma cancel_task_raises fm k r :
  dict_get k (robots fm) = Some r →
  Robot.status r = Robot.MOVING ∨ Robot.status r = Robot.WAITING →
  cancel_task fm k = Raises fm TypeError.
Proof.
  intros Hr Hs. unfold cancel_task. rewrite Hr.
  by destruct Hs as [-> | ->].
Qed.

(** C4 (cancel contract), on the code: cancelling the MOVING robot 1 raises
    [TypeError] and leaves the orchestrator unchanged: the robot is still
    MOVING with its target, and its reservations are still in the table.
    Cancelling the BLOCKED robot 2 or an unknown robot returns [false] and
    changes nothing. *)
Theorem cancel_task_moving_raises :
  summary one_moving_one_blocked =
    [(1, Robot.MOVING, 1, Some 3); (2, Robot.BLOCKED, 2, None)] ∧
  cancel_task one_moving_one_blocked 1 =
    Raises one_moving_one_blocked TypeError ∧
  cancel_task one_moving_one_blocked 2 =
    Return one_moving_one_blocked false ∧
  cancel_task one_moving_one_blocked 7 =
    Return one_moving_one_blocked false.
Proof. by vm_compute. Qed.

(** C3 (waiter retry pipeline), on the code.  Robot 2 travels from vertex 2
    to vertex 1 and completes its task within 202 ticks.  Robot 1 is then
    granted the path 1-2 and robot 2, asking for the same path, is denied:
    it is BLOCKED with a target and recorded in the waiting list of vertex
    1.  Robot 1 reaches vertex 2 at the 200th tick after that;
    [release_path] returns the list [[2]] and clears it, the membership test
    on that list raises [TypeError], and [update_robots] ends there:
    [assign_task] is not called for robot 2, which stays BLOCKED, and the
    waiting list of vertex 1 is now empty. *)
Theorem update_robots_drops_waiters :
  match ticks 202 0 first_task with
  | Raises _ _ => False
  | Return fm _ =>
      let fm' := second_tasks (Qmake 202 10) fm in
      summary fm' =
        [(1, Robot.MOVING, 1, Some 2); (2, Robot.BLOCKED, 1, Some 1)] ∧
      TrafficManager.get_waiting_robots (traffic_manager fm') 1 = [2] ∧
      match ticks 200 202 fm' with
      | Return _ _ => False
      | Raises fm'' e =>
          e = TypeError ∧
          summary fm'' =
            [(1, Robot.MOVING, 2, Some 2); (2, Robot.BLOCKED, 1, Some 1)] ∧
          TrafficManager.waiting_queues (traffic_manager fm'') !! 1 = Some []
      end
  end.
Proof. by vm_compute. Qed.

End Scenarios.

(** * Further properties of the code *)

(** ** The traffic coordinator *)

Section TrafficExtras.

Import TrafficManager Leases.

Implicit Types (tm : TrafficManager.t) (e : elem) (p q : list Z).

Lemma tm_eq (x y : TrafficManager.t) :
  vertex_locks x = vertex_locks y → edge_locks x = edge_locks y →
  waiting_queues x = waiting_queues y → x = y.
Proof. destruct x, y; cbn; by intros -> -> ->. Qed.

Lemma is_path_clear_cons2 tm a now u v p :
  is_path_clear tm a now (u :: v :: p) =
  match blocking a now (vertex_locks tm !! u) with
  | Some lock_robot => (false, Some lock_robot)
  | None =>
      match blocking a now (edge_locks tm !! (u, v)) with
      | Some lock_robot => (false, Some lock_robot)
      | None => is_path_clear tm a now (v :: p)
      end
  end.
Proof.
  cbn [is_path_clear]. unfold blocking.
  destruct (vertex_locks tm !! u) as [[h t0]|];
    [destruct (negb (h =? a) && _)|];
    try done;
    (destruct (edge_locks tm !! (u, v)) as [[h' t1]|];
       [by destruct (negb (h' =? a) && _)|done]).
Qed.

(** X1.  [is_path_clear] gives, for the same table, robot, path and clock
    reading, exactly the answer of [request_path]: cleared or not, and the
    same blocking robot. *)
Theorem is_path_clear_agrees tm a now p :
  is_path_clear tm a now p = (request_path tm a now p).2.
Proof.
  rewrite request_path_result.
  induction p as [|u p IH]; [done|]. destruct p as [|v p]; [done|].
  rewrite is_path_clear_cons2, scan_cons2.
  destruct (blocking a now (vertex_locks tm !! u)) as [h|]; [done|].
  destruct (blocking a now (edge_locks tm !! (u, v))) as [h|]; [done|].
  exact IH.
Qed.

(** X2.  Releasing twice in a row: the second [release_path] with the same
    arguments leaves the three tables exactly as the first one left them; it
    returns the empty list when the first returned a list, and [None] when
    the first returned [None]. *)
Theorem release_path_idempotent tm a v :
  (release_path (release_path tm a v).1 a v).1 = (release_path tm a v).1 ∧
  (release_path (release_path tm a v).1 a v).2 =
    match (release_path tm a v).2 with Some _ => Some [] | None => None end.
Proof.
  set (tm1 := (release_path tm a v).1).
  pose proof (release_path_queue tm a v) as Hq. fold tm1 in Hq.
  pose proof (release_path_queue tm1 a v) as Hq1.
  assert (waiting_queues tm1 !! v =
          match waiting_queues tm !! v with
          | Some _ => Some [] | None => None end) as Hlook.
  { destruct (waiting_queues tm !! v) as [q0|] eqn:E; destruct Hq as [_ ->].
    - apply lookup_insert_eq.
    - done. }
  rewrite Hlook in Hq1.
  split.
  - apply tm_eq.
    + apply map_eq. intros u. rewrite release_path_vertex. unfold tm1.
      rewrite release_path_vertex.
      destruct (vertex_locks tm !! u) as [[h t0]|]; [|done].
      destruct (bool_decide (u = v ∧ h = a)) eqn:E; [done|]. by rewrite E.
    + apply map_eq. intros uv. rewrite release_path_edge. unfold tm1.
      rewrite release_path_edge.
      destruct (edge_locks tm !! uv) as [[h t0]|]; [|done].
      destruct (bool_decide (h = a)) eqn:E; [done|]. by rewrite E.
    + destruct (waiting_queues tm !! v) as [q0|] eqn:E.
      * destruct Hq1 as [_ ->]. destruct Hq as [_ ->].
        apply insert_insert_eq.
      * by destruct Hq1 as [_ ->].
  - destruct (waiting_queues tm !! v) as [q0|] eqn:E.
    + destruct Hq1 as [-> _]. by destruct Hq as [-> _].
    + destruct Hq1 as [-> _]. by destruct Hq as [-> _].
Qed.

Lemma granted_scan tm a t p :
  (request_path tm a t p).2.1 = true → scan tm a t p = None.
Proof.
  rewrite request_path_result. by destruct (scan tm a t p) as [[v h]|].
Qed.

Lemma denied_scan tm a t p :
  (request_path tm a t p).2.1 = false → is_Some (scan tm a t p).
Proof.
  rewrite request_path_result. destruct (scan tm a t p) as [[v h]|]; [|done].
  by eexists.
Qed.

Lemma granted_reservation tm a t p e :
  (request_path tm a t p).2.1 = true →
  reservation (request_path tm a t p).1 e =
  if bool_decide (e ∈ path_elems p) then Some (a, t) else reservation tm e.
Proof.
  intros H%granted_scan. by apply request_path_granted.
Qed.

(** X3.  A robot is not blocked by its own reservations: after a grant, the
    same request by the same robot at any later or earlier clock reading
    [t'] is granted again and restamps every element of the path with
    [t']. *)
Theorem request_path_refresh tm a t t' p :
  (request_path tm a t p).2.1 = true →
  (request_path (request_path tm a t p).1 a t' p).2 = (true, None) ∧
  ∀ e, e ∈ path_elems p →
       reservation (request_path (request_path tm a t p).1 a t' p).1 e =
       Some (a, t').
Proof.
  intros Hg. set (tm1 := (request_path tm a t p).1).
  assert (scan tm1 a t' p = None) as Hscan.
  { apply scan_None. intros e He. apply blocking_None. intros h t0.
    unfold tm1. rewrite (granted_reservation _ _ _ _ _ Hg).
    rewrite bool_decide_eq_true_2 by done. intros [= <- <-]. by left. }
  destruct (request_path_granted _ _ _ _ Hscan) as (Hres & _ & Ht).
  split; [done|]. intros e He. rewrite Ht. by rewrite bool_decide_eq_true_2.
Qed.

(** X4.  After robot [a] was granted a path at time [t], a request by
    another robot at a time [t'] with [t' - t < 5] for any path that shares
    a vertex (other than the last of either path) or a directed edge with
    it is denied, and both lock tables are left as they were. *)
Theorem overlapping_request_denied tm a b t t' p q e :
  (request_path tm a t p).2.1 = true → b ≠ a →
  e ∈ path_elems p → e ∈ path_elems q → unexpired t t' →
  ∃ h, (request_path (request_path tm a t p).1 b t' q).2 = (false, Some h) ∧
       vertex_locks (request_path (request_path tm a t p).1 b t' q).1 =
         vertex_locks (request_path tm a t p).1 ∧
       edge_locks (request_path (request_path tm a t p).1 b t' q).1 =
         edge_locks (request_path tm a t p).1.
Proof.
  intros Hg Hne Hp Hq Hlive. set (tm1 := (request_path tm a t p).1).
  destruct (scan tm1 b t' q) as [[v h]|] eqn:Hscan.
  - exists h. by rewrite (request_path_denied _ _ _ _ _ _ Hscan).
  - exfalso. pose proof (proj1 (scan_None _ _ _ _) Hscan e Hq) as Hfree.
    unfold tm1 in Hfree. rewrite (granted_reservation _ _ _ _ _ Hg) in Hfree.
    rewrite bool_decide_eq_true_2 in Hfree by done.
    destruct (proj1 (blocking_None _ _ _) Hfree a t eq_refl) as [?|Hge];
      [done|].
    unfold unexpired in Hlive. lra.
Qed.

Lemma init_reservation e : reservation TrafficManager.__init__ e = None.
Proof. destruct e; unfold reservation; cbn; apply lookup_empty. Qed.

Lemma init_granted a t p :
  (request_path TrafficManager.__init__ a t p).2.1 = true.
Proof.
  rewrite request_path_result.
  assert (scan TrafficManager.__init__ a t p = None) as ->; [|done].
  apply scan_None. intros e _. by rewrite init_reservation.
Qed.

(** X5.  On a table whose only entries are those of one grant to robot [a]
    at time [t], a request by another robot at time [t'] is granted exactly
    when the lease has run out ([t' - t >= 5]) or the two paths have no
    checked element in common. *)
Theorem second_request_on_fresh_table a b t t' p q :
  b ≠ a →
  (request_path (request_path TrafficManager.__init__ a t p).1 b t' q).2.1
    = true
  ↔ (lock_duration <= t' - t)%Q ∨
    (∀ e, e ∈ path_elems p → e ∉ path_elems q).
Proof.
  intros Hne. pose proof (init_granted a t p) as Hg.
  set (tm1 := (request_path TrafficManager.__init__ a t p).1).
  assert (∀ e, reservation tm1 e =
               if bool_decide (e ∈ path_elems p) then Some (a, t) else None)
    as Hres.
  { intros e. unfold tm1. rewrite (granted_reservation _ _ _ _ _ Hg).
    by rewrite init_reservation. }
  split.
  - intros Hg2%granted_scan.
    destruct (Qlt_le_dec (t' - t) lock_duration) as [Hlt|Hge]; [|by left].
    right. intros e Hp Hq.
    pose proof (proj1 (scan_None _ _ _ _) Hg2 e Hq) as Hfree.
    rewrite Hres, bool_decide_eq_true_2 in Hfree by done.
    destruct (proj1 (blocking_None _ _ _) Hfree a t eq_refl) as [?|Hge];
      [done|lra].
  - intros H. rewrite request_path_result.
    assert (scan tm1 b t' q = None) as ->; [|done].
    apply scan_None. intros e Hq. apply blocking_None. intros h t0.
    rewrite Hres. case_bool_decide as Hp; [|done]. intros [= <- <-].
    destruct H as [Hge|Hdisj]; [by right|]. by destruct (Hdisj e Hp).
Qed.

(** X6.  The two directions of a connection are separate resources: with
    [u] and [v] distinct, after robot [a] was granted the path [u, v] on an
    empty table, robot [b] is granted the path [v, u] at any time, and both
    edge reservations then stand side by side. *)
Theorem opposite_directions_not_exclusive a b t t' u v :
  u ≠ v →
  let tm2 := (request_path (request_path TrafficManager.__init__ a t [u; v]).1
                b t' [v; u]).1 in
  (request_path (request_path TrafficManager.__init__ a t [u; v]).1
     b t' [v; u]).2 = (true, None) ∧
  edge_locks tm2 !! (u, v) = Some (a, t) ∧
  edge_locks tm2 !! (v, u) = Some (b, t').
Proof.
  intros Huv tm2. pose proof (init_granted a t [u; v]) as Hg.
  set (tm1 := (request_path TrafficManager.__init__ a t [u; v]).1) in *.
  assert (∀ e, reservation tm1 e =
               if bool_decide (e ∈ path_elems [u; v]) then Some (a, t)
               else None) as Hres.
  { intros e. unfold tm1. rewrite (granted_reservation _ _ _ _ _ Hg).
    by rewrite init_reservation. }
  assert (scan tm1 b t' [v; u] = None) as Hscan.
  { apply scan_None. intros e He. rewrite Hres.
    rewrite bool_decide_eq_false_2; [done|].
    cbn [path_elems] in *. rewrite !elem_of_cons in *.
    intros [->|[->|[]%elem_of_nil]]; destruct He as [?|[?|[]%elem_of_nil]];
      congruence. }
  destruct (request_path_granted _ _ _ _ Hscan) as (Hr & _ & Ht).
  split; [done|]. fold tm2 in Ht. split.
  - change (reservation tm2 (inr (u, v)) = Some (a, t)). rewrite Ht.
    rewrite bool_decide_eq_false_2.
    + rewrite Hres. rewrite bool_decide_eq_true_2; [done|].
      cbn [path_elems]. rewrite !elem_of_cons. auto.
    + cbn [path_elems]. rewrite !elem_of_cons.
      intros [?|[?|[]%elem_of_nil]]; congruence.
  - change (reservation tm2 (inr (v, u)) = Some (b, t')). rewrite Ht.
    rewrite bool_decide_eq_true_2; [done|].
    cbn [path_elems]. rewrite !elem_of_cons. auto.
Qed.

Lemma path_elems_vertex p v :
  inl v ∈ path_elems p → ∃ l1 l2, p = l1 ++ v :: l2 ∧ l2 ≠ [].
Proof.
  induction p as [|u p IH]; [by intros []%elem_of_nil|].
  destruct p as [|w p]; [by intros []%elem_of_nil|].
  rewrite path_elems_cons2, !elem_of_cons.
  intros [[= ->]|[?|Hin]]; [|done|].
  - by exists [], (w :: p).
  - destruct (IH Hin) as (l1 & l2 & -> & Hl2).
    by exists (u :: l1), l2.
Qed.

Lemma destination_not_an_element p d :
  NoDup p → last p = Some d → inl d ∉ path_elems p.
Proof.
  intros Hnd Hlast (l1 & l2 & -> & Hl2)%path_elems_vertex.
  apply NoDup_app in Hnd as (_ & _ & [Hd _]%NoDup_cons).
  rewrite last_app_cons, last_cons in Hlast.
  destruct (last l2) as [x|] eqn:El2.
  - injection Hlast as ->. by apply last_Some_elem_of in El2.
  - by apply last_None in El2.
Qed.

(** X7.  [request_path] never touches the entry of the destination: for a
    path without repeated vertices, the vertex lock of the last vertex is
    after the call what it was before, whether the request is granted or
    denied. *)
Theorem destination_vertex_not_reserved tm a t p d :
  NoDup p → last p = Some d →
  vertex_locks (request_path tm a t p).1 !! d = vertex_locks tm !! d.
Proof.
  intros Hnd Hlast.
  destruct (scan tm a t p) as [[v h]|] eqn:Hscan.
  - by rewrite (request_path_denied _ _ _ _ _ _ Hscan).
  - destruct (request_path_granted _ _ _ _ Hscan) as (_ & _ & Ht).
    specialize (Ht (inl d)).
    rewrite bool_decide_eq_false_2 in Ht
      by by apply destination_not_an_element.
    exact Ht.
Qed.

(** X8.  After a grant to [a], one [release_path a v] leaves no edge
    reservation held by [a] anywhere, also on the part of the path not yet
    travelled, while every reserved vertex of the path other than [v] stays
    reserved for [a] with its stamp; the entry of [v] is removed. *)
Theorem release_drops_every_edge_of_the_path tm a t p v :
  (request_path tm a t p).2.1 = true →
  let tm2 := (release_path (request_path tm a t p).1 a v).1 in
  (∀ uv h t0, edge_locks tm2 !! uv = Some (h, t0) → h ≠ a) ∧
  (∀ u, inl u ∈ path_elems p → u ≠ v → vertex_locks tm2 !! u = Some (a, t)) ∧
  (inl v ∈ path_elems p → vertex_locks tm2 !! v = None).
Proof.
  intros Hg tm2. split_and!.
  - intros uv h t0. unfold tm2. rewrite release_path_edge.
    destruct (edge_locks _ !! uv) as [[h' t1]|]; [|done].
    case_bool_decide; [done|]. by intros [= <- <-].
  - intros u Hu Hne. unfold tm2. rewrite release_path_vertex.
    pose proof (granted_reservation _ _ _ _ (inl u) Hg) as Hr.
    rewrite bool_decide_eq_true_2 in Hr by done.
    unfold reservation in Hr. cbn [lookup2 fst] in Hr. rewrite Hr.
    rewrite bool_decide_eq_false_2; [done|]. by intros [? _].
  - intros Hv. unfold tm2. rewrite release_path_vertex.
    pose proof (granted_reservation _ _ _ _ (inl v) Hg) as Hr.
    rewrite bool_decide_eq_true_2 in Hr by done.
    unfold reservation in Hr. cbn [lookup2 fst] in Hr. rewrite Hr.
    by rewrite bool_decide_eq_true_2.
Qed.

(** X9.  In every state reached by [request_path] and [release_path] calls,
    no waiting queue holds a robot twice. *)
Theorem waiting_queues_have_no_duplicates s :
  reachable s → ∀ v, NoDup (get_waiting_robots (tm s) v).
Proof.
  induction 1 as [c0|s ev _ IH]; intros v.
  - unfold get_waiting_robots. cbn. rewrite lookup_empty. apply NoDup_nil_2.
  - destruct ev as [a p now|a u]; cbn [step].
    + destruct (scan (tm s) a now p) as [[w h]|] eqn:Hscan.
      * rewrite (request_path_denied _ _ _ _ _ _ Hscan). cbn [tm].
        unfold get_waiting_robots. cbn [waiting_queues].
        rewrite enqueue_lookup. case_bool_decide as Hv; [subst|apply IH].
        cbn [default]. apply enqueue_NoDup, IH.
      * destruct (request_path_granted _ _ _ _ Hscan) as (Hres & Hq & _).
        destruct (request_path (tm s) a now p) as [tm' [g b]].
        cbn [tm]. unfold get_waiting_robots. cbn [fst] in Hq. rewrite Hq.
        apply IH.
    + cbn [tm]. unfold get_waiting_robots.
      pose proof (release_path_queue (tm s) a u) as Hq.
      destruct (waiting_queues (tm s) !! u) as [q0|] eqn:E;
        destruct Hq as [_ ->].
      * destruct (decide (v = u)) as [->|Hne].
        -- rewrite lookup_insert_eq. apply NoDup_nil_2.
        -- rewrite lookup_insert_ne by done. apply IH.
      * apply IH.
Qed.

End TrafficExtras.

(** ** Motion along an edge *)

Section MotionExtras.

Import Robot.

Lemma clamp_bounds (x : Q) : (0 <= Qmax 0 (Qmin 1 x) <= 1)%Q.
Proof.
  split; [apply Q.le_max_l|]. apply Q.max_lub; [lra|apply Q.le_min_l].
Qed.

Lemma clamp_low (x : Q) : (x <= 0)%Q → (Qmax 0 (Qmin 1 x) == 0)%Q.
Proof.
  intros H. apply Q.max_l. eapply Qle_trans; [apply Q.le_min_r|done].
Qed.

Lemma clamp_high (x : Q) : (1 <= x)%Q → (Qmax 0 (Qmin 1 x) == 1)%Q.
Proof.
  intros H. rewrite (Q.min_l 1 x H). apply Q.max_r. lra.
Qed.

Lemma cubic_bounds (y : Q) :
  (0 <= y <= 1)%Q → (0 <= y * y * (3 - 2 * y) <= 1)%Q.
Proof.
  intros [H0 H1].
  assert (0 <= y * y)%Q by (apply Qmult_le_0_compat; lra).
  assert (0 <= y * y * (3 - 2 * y))%Q by (apply Qmult_le_0_compat; lra).
  assert (0 <= (1 - y) * (1 - y))%Q by (apply Qmult_le_0_compat; lra).
  assert (0 <= (1 - y) * (1 - y) * (1 + 2 * y))%Q
    by (apply Qmult_le_0_compat; lra).
  split; lra.
Qed.

(** X10.  [_smooth_step] maps every input into the interval from 0 to 1,
    is 0 for inputs up to 0 and 1 for inputs from 1 on. *)
Theorem smooth_step_range (x : Q) :
  (0 <= _smooth_step x <= 1)%Q ∧
  ((x <= 0)%Q → (_smooth_step x == 0)%Q) ∧
  ((1 <= x)%Q → (_smooth_step x == 1)%Q).
Proof.
  unfold _smooth_step. split; [|split].
  - apply cubic_bounds, clamp_bounds.
  - intros H. rewrite (clamp_low x H). ring.
  - intros H. rewrite (clamp_high x H). ring.
Qed.



Variable delta_time : Q.
Variable get_vertex_pos : Z → Q * Q.

Local Abbreviation update := (update_position delta_time get_vertex_pos).



End MotionExtras.

(** ** The orchestrator *)

Section FleetExtras.

Import FleetManager.

Lemma dict_get_keys k (d : dict) :
  dict_get k d = None ↔ k ∉ map fst d.
Proof.
  induction d as [|[k' v] d IH]; cbn [dict_get map fst].
  - split; [intros _ []%elem_of_nil|done].
  - rewrite not_elem_of_cons.
    destruct (Z.eqb_spec k' k) as [->|Hne]; [split; [done|by intros [? _]]|].
    rewrite IH. split; [by split|by intros [_ ?]].
Qed.

Lemma keys_dict_set_present k v (d : dict) :
  is_Some (dict_get k d) → map fst (dict_set k v d) = map fst d.
Proof.
  induction d as [|[k' v'] d IH]; cbn [dict_get dict_set map fst].
  - by intros [? ?].
  - destruct (Z.eqb_spec k' k) as [->|Hne]; cbn [map fst]; [done|].
    intros H. by rewrite IH.
Qed.

Lemma keys_dict_set_absent k v (d : dict) :
  dict_get k d = None → map fst (dict_set k v d) = map fst d ++ [k].
Proof.
  induction d as [|[k' v'] d IH]; cbn [dict_get dict_set map fst]; [done|].
  destruct (Z.eqb_spec k' k) as [->|Hne]; [done|]. cbn [map fst app].
  intros H. by rewrite IH.
Qed.

Lemma ids_kept_refl d : ids_kept d d.
Proof. split; [done|]. intros k r Hr. by exists r. Qed.

Lemma ids_kept_trans d1 d2 d3 :
  ids_kept d1 d2 → ids_kept d2 d3 → ids_kept d1 d3.
Proof.
  intros [K1 H1] [K2 H2]. split; [congruence|].
  intros k r3 Hr3. destruct (H2 _ _ Hr3) as (r2 & Hr2 & E2).
  destruct (H1 _ _ Hr2) as (r1 & Hr1 & E1). exists r1. split; congruence.
Qed.

Lemma ids_kept_set k r r' d :
  dict_get k d = Some r → Robot.robot_id r' = Robot.robot_id r →
  ids_kept d (dict_set k r' d).
Proof.
  intros Hr Hid. split; [by apply keys_dict_set_present|].
  intros j rj. destruct (decide (j = k)) as [->|Hne].
  - rewrite dict_get_set_eq. intros [= <-]. by exists r.
  - rewrite dict_get_set_ne by done. intros Hj. by exists rj.
Qed.

Lemma update_position_robot_id dt gvp r r' :
  Robot.update_position dt gvp r = Some r' →
  Robot.robot_id r' = Robot.robot_id r.
Proof.
  unfold Robot.update_position. intros H.
  repeat case_match; simplify_eq; done.
Qed.

Variable nav_graph : NavGraph.

(** What [assign_task] can do to the orchestrator. *)
Lemma assign_task_cases fm k target now :
  (assign_task nav_graph fm k target now).1 = fm ∨
  ∃ r r' tm,
    dict_get k (robots fm) = Some r ∧
    (Robot.status r = Robot.IDLE ∨ Robot.status r = Robot.TASK_COMPLETE) ∧
    Robot.robot_id r' = Robot.robot_id r ∧
    (assign_task nav_graph fm k target now).1 =
      with_robot (with_traffic fm tm) k r'.
Proof.
  unfold assign_task.
  destruct (dict_get k (robots fm)) as [r|] eqn:Hr; [|by left].
  destruct (Robot.status r) eqn:Hs; try by left.
  all: destruct (get_shortest_path nav_graph _ _) as [|v0 p]; [by left|].
  all: destruct (TrafficManager.request_path _ _ _ _) as [tm [[] b]];
    right; eexists r, _, tm; (split_and!; [done|eauto| |reflexivity]); done.
Qed.

Lemma assign_task_keeps fm k target now :
  ids_kept (robots fm) (robots (assign_task nav_graph fm k target now).1) ∧
  next_robot_id (assign_task nav_graph fm k target now).1 = next_robot_id fm ∧
  last_update (assign_task nav_graph fm k target now).1 = last_update fm.
Proof.
  destruct (assign_task_cases fm k target now)
    as [->|(r & r' & tm & Hr & _ & Hid & ->)].
  - split_and!; [apply ids_kept_refl|done..].
  - split_and!; [|done..]. cbn. by apply (ids_kept_set k r).
Qed.

(** What one iteration of the loop of [update_robots] can do. *)
Lemma update_robot_keeps ct dt rt fm k :
  ids_kept (robots fm)
    (robots (outcome_state (update_robot nav_graph ct dt rt fm k))) ∧
  next_robot_id (outcome_state (update_robot nav_graph ct dt rt fm k))
    = next_robot_id fm ∧
  last_update (outcome_state (update_robot nav_graph ct dt rt fm k))
    = last_update fm.
Proof.
  unfold update_robot.
  destruct (dict_get k (robots fm)) as [r|] eqn:Hr;
    [|split_and!; [apply ids_kept_refl|done..]].
  destruct (Robot.status r) eqn:Hs;
    try (split_and!; [apply ids_kept_refl|done..]).
  - destruct (Robot.update_position dt _ r) as [r'|] eqn:Hu;
      [|split_and!; [apply ids_kept_refl|done..]].
    pose proof (update_position_robot_id _ _ _ _ Hu) as Hid.
    assert (ids_kept (robots fm) (robots (with_robot fm k r'))) as Hk
      by by apply (ids_kept_set k r).
    case_bool_decide; [|by split_and!].
    destruct (TrafficManager.release_path _ _ _) as [tm [q|]]; by split_and!.
  - destruct (match Robot.last_retry_time r with
              | Some last => Qltb (ct - last) 1 | None => false end);
      [split_and!; [apply ids_kept_refl|done..]|].
    set (r' := Robot.mk _ _ _ _ _ _ _ _ _ _ _ _ _ _).
    assert (ids_kept (robots fm) (robots (with_robot fm k r'))) as Hk
      by by apply (ids_kept_set k r).
    cbn [Robot.target_vertex r'].
    destruct (Robot.target_vertex r) as [target|]; [|by split_and!].
    cbn [outcome_state].
    destruct (assign_task_keeps (with_robot fm k r') (Robot.robot_id r')
                target rt) as (Hk2 & Hn2 & Hl2).
    split_and!; [|by rewrite Hn2|by rewrite Hl2].
    by apply (ids_kept_trans _ _ _ Hk).
Qed.

Lemma update_loop_keeps ct dt rt keys : ∀ fm,
  ids_kept (robots fm)
    (robots (outcome_state (update_loop nav_graph ct dt rt keys fm))) ∧
  next_robot_id (outcome_state (update_loop nav_graph ct dt rt keys fm))
    = next_robot_id fm ∧
  last_update (outcome_state (update_loop nav_graph ct dt rt keys fm))
    = last_update fm.
Proof.
  induction keys as [|k keys IH]; intros fm; cbn [update_loop].
  - split_and!; [apply ids_kept_refl|done..].
  - pose proof (update_robot_keeps ct dt rt fm k) as (Hk & Hn & Hl).
    destruct (update_robot nav_graph ct dt rt fm k) as [fm' u|fm' e];
      cbn [outcome_state] in *; [|done].
    destruct (IH fm') as (Hk' & Hn' & Hl').
    split_and!; [|congruence..]. by apply (ids_kept_trans _ _ _ Hk).
Qed.

(** X17.  A tick never adds or removes a robot and never changes an id or
    [next_robot_id], and it records its clock reading in [last_update],
    whether it returns or raises. *)
Theorem update_robots_keeps_the_fleet current_time request_time fm :
  let fm' := outcome_state
               (update_robots nav_graph current_time request_time fm) in
  map fst (robots fm') = map fst (robots fm) ∧
  (∀ k r', dict_get k (robots fm') = Some r' →
           ∃ r, dict_get k (robots fm) = Some r ∧
                Robot.robot_id r' = Robot.robot_id r) ∧
  next_robot_id fm' = next_robot_id fm ∧
  last_update fm' = Some current_time.
Proof.
  intros fm'. unfold fm', update_robots.
  match goal with
  | |- context [update_loop nav_graph ?ct ?dt ?rt ?ks ?f] =>
      destruct (update_loop_keeps ct dt rt ks f) as ([Hk1 Hk2] & Hn & Hl)
  end.
  by split_and!.
Qed.

Lemma fleet_wf_kept fm fm' :
  fleet_wf fm → ids_kept (robots fm) (robots fm') →
  next_robot_id fm' = next_robot_id fm → fleet_wf fm'.
Proof.
  intros (Hnd & H1 & Hid) [Hk Hr] Hn.
  split_and!; [by rewrite Hk|by rewrite Hn|].
  intros k r' Hr'. destruct (Hr _ _ Hr') as (r & Hr0 & E).
  rewrite E, Hn. by apply Hid.
Qed.

Lemma fleet_wf_fresh fm :
  fleet_wf fm → dict_get (next_robot_id fm) (robots fm) = None.
Proof.
  intros (_ & _ & Hid). destruct (dict_get _ _) as [r|] eqn:E; [|done].
  destruct (Hid _ _ E). lia.
Qed.

Lemma fleet_wf_spawn fm v :
  fleet_wf fm → fleet_wf (spawn_robot nav_graph fm v).1.
Proof.
  intros Hwf. pose proof (fleet_wf_fresh _ Hwf) as Hfresh.
  destruct Hwf as (Hnd & H1 & Hid). unfold spawn_robot.
  destruct (vertices nav_graph !! v) as [[x y]|]; [|done].
  cbv zeta. unfold fleet_wf. cbn [fst robots next_robot_id].
  split_and!; [|lia|].
  - rewrite keys_dict_set_absent by done.
    apply NoDup_app. split_and!; [done| |apply NoDup_singleton].
    intros k Hk ->%list_elem_of_singleton. by apply dict_get_keys in Hfresh.
  - intros k r. destruct (decide (k = next_robot_id fm)) as [->|Hne].
    + rewrite dict_get_set_eq. intros [= <-]. cbn. split; [done|lia].
    + rewrite dict_get_set_ne by done. intros Hr.
      destruct (Hid _ _ Hr). split; [done|lia].
Qed.

Lemma cancel_task_state fm k : outcome_state (cancel_task fm k) = fm.
Proof.
  unfold cancel_task. destruct (dict_get k (robots fm)) as [r|]; [|done].
  by destruct (Robot.status r).
Qed.

Lemma fleet_wf_step fm fm' :
  fleet_wf fm → fleet_step nav_graph fm fm' → fleet_wf fm'.
Proof.
  intros Hwf Hstep.
  destruct Hstep as [fm0 v|fm0 k target now|fm0 k|fm0 ct rt].
  - by apply fleet_wf_spawn.
  - destruct (assign_task_keeps fm0 k target now) as (Hk & Hn & _).
    by apply (fleet_wf_kept fm0).
  - by rewrite cancel_task_state.
  - unfold update_robots.
    match goal with
    | |- context [update_loop nav_graph ?c ?d ?q ?ks ?f] =>
        destruct (update_loop_keeps c d q ks f) as (Hk & Hn & _)
    end.
    by apply (fleet_wf_kept fm0).
Qed.

Lemma fleet_reachable_wf fm : fleet_reachable nav_graph fm → fleet_wf fm.
Proof.
  induction 1 as [|fm fm' _ IH Hstep].
  - split_and!; [apply NoDup_nil_2|done|done].
  - by apply (fleet_wf_step fm).
Qed.

(** X15.  In every orchestrator reached from a new one by [spawn_robot],
    [assign_task], [cancel_task] and [update_robots] calls, the keys of the
    robots dictionary are distinct, every robot is stored under its own
    [robot_id], and the ids lie between 1 and [next_robot_id]
    (exclusive). *)
Theorem robots_are_stored_under_their_ids fm :
  fleet_reachable nav_graph fm →
  NoDup (map fst (robots fm)) ∧ 1 <= next_robot_id fm ∧
  ∀ k r, dict_get k (robots fm) = Some r →
         Robot.robot_id r = k ∧ 1 <= k < next_robot_id fm.
Proof. apply fleet_reachable_wf. Qed.

(** X18.  [spawn_robot] on a reachable orchestrator: an unknown vertex
    gives [None] and changes nothing; a known vertex gives a new IDLE robot
    at the coordinates of the vertex, stored under an id that was not in
    use, leaves every other robot and the traffic manager as they were, and
    advances [next_robot_id] by one. *)
Theorem spawn_robot_allocates_a_fresh_id fm vertex_id :
  fleet_reachable nav_graph fm →
  match vertices nav_graph !! vertex_id with
  | None => spawn_robot nav_graph fm vertex_id = (fm, None)
  | Some (x, y) =>
      let new_id := next_robot_id fm in
      let robot := with_position x y (Robot.__init__ new_id vertex_id) in
      (spawn_robot nav_graph fm vertex_id).2 = Some robot ∧
      dict_get new_id (robots fm) = None ∧
      dict_get new_id (robots (spawn_robot nav_graph fm vertex_id).1)
        = Some robot ∧
      (∀ k, is_Some (dict_get k (robots fm)) →
            dict_get k (robots (spawn_robot nav_graph fm vertex_id).1)
            = dict_get k (robots fm)) ∧
      next_robot_id (spawn_robot nav_graph fm vertex_id).1 = new_id + 1 ∧
      traffic_manager (spawn_robot nav_graph fm vertex_id).1
        = traffic_manager fm
  end.
Proof.
  intros Hwf%fleet_reachable_wf.
  pose proof (fleet_wf_fresh fm Hwf) as Hfresh.
  unfold spawn_robot.
  destruct (vertices nav_graph !! vertex_id) as [[x y]|]; [|done].
  cbv zeta. cbn [fst snd robots next_robot_id traffic_manager].
  split_and!; try done.
  - apply dict_get_set_eq.
  - intros k [r Hr]. apply dict_get_set_ne. intros ->. congruence.
Qed.

(** *** A BLOCKED robot stays as it is *)

Section Frozen.

Variable k : Z.
Variable r : Robot.t.
Hypothesis r_blocked : Robot.status r = Robot.BLOCKED.

Local Abbreviation is_frozen fm := (frozen k r fm).

Lemma frozen_with_robot fm j rj :
  j ≠ k → is_frozen fm → is_frozen (with_robot fm j rj).
Proof.
  intros Hne [last Hk]. exists last. cbn. by rewrite dict_get_set_ne.
Qed.

Lemma frozen_assign_task fm j target now :
  is_frozen fm → is_frozen (assign_task nav_graph fm j target now).1.
Proof.
  intros Hf.
  destruct (assign_task_cases fm j target now)
    as [->|(rj & r' & tm & Hr & Hs & _ & ->)]; [done|].
  destruct (decide (j = k)) as [->|Hne].
  - destruct Hf as [last Hk]. rewrite Hk in Hr. injection Hr as <-.
    cbn in Hs. rewrite r_blocked in Hs. by destruct Hs.
  - apply frozen_with_robot; [done|]. destruct Hf as [last Hk]. by exists last.
Qed.

Lemma frozen_update_robot ct dt rt fm j :
  is_frozen fm → is_frozen (outcome_state (update_robot nav_graph ct dt rt fm j)).
Proof.
  intros Hf. unfold update_robot.
  destruct (dict_get j (robots fm)) as [rj|] eqn:Hr; [|done].
  destruct (decide (j = k)) as [->|Hne].
  - destruct Hf as [last Hk]. rewrite Hk in Hr. injection Hr as <-.
    cbn [retried Robot.status Robot.last_retry_time Robot.target_vertex].
    rewrite r_blocked.
    destruct (match last with
              | Some last0 => Qltb (ct - last0) 1 | None => false end);
      [by exists last|].
    match goal with
    | |- context [with_robot fm k ?x] =>
        assert (is_frozen (with_robot fm k x)) as Hf1
    end.
    { exists (Some ct). cbn [with_robot robots]. rewrite dict_get_set_eq.
      f_equal. unfold retried. cbn. by rewrite r_blocked. }
    destruct (Robot.target_vertex r) as [target|]; [|done].
    cbn [outcome_state]. by apply frozen_assign_task.
  - destruct (Robot.status rj) eqn:Hs; try done.
    + destruct (Robot.update_position dt _ rj) as [r'|]; [|done].
      pose proof (frozen_with_robot fm j r' Hne Hf) as Hf1.
      case_bool_decide; [|done].
      destruct (TrafficManager.release_path _ _ _) as [tm [q|]];
        destruct Hf1 as [last Hk]; by exists last.
    + destruct (match Robot.last_retry_time rj with
                | Some last => Qltb (ct - last) 1 | None => false end);
        [done|].
      match goal with
      | |- context [with_robot fm j ?x] =>
          pose proof (frozen_with_robot fm j x Hne Hf) as Hf1
      end.
      cbn [Robot.target_vertex].
      destruct (Robot.target_vertex rj) as [target|]; [|done].
      cbn [outcome_state]. by apply frozen_assign_task.
Qed.

Lemma frozen_update_loop ct dt rt keys : ∀ fm,
  is_frozen fm → is_frozen (outcome_state (update_loop nav_graph ct dt rt keys fm)).
Proof.
  induction keys as [|j keys IH]; intros fm Hf; cbn [update_loop]; [done|].
  pose proof (frozen_update_robot ct dt rt fm j Hf) as Hf1.
  destruct (update_robot nav_graph ct dt rt fm j) as [fm' u|fm' e];
    cbn [outcome_state] in *; [by apply IH|done].
Qed.

Lemma frozen_step fm fm' :
  fleet_wf fm → fleet_step nav_graph fm fm' → is_frozen fm → is_frozen fm'.
Proof.
  intros Hwf Hstep Hf.
  destruct Hstep as [fm0 v|fm0 j target now|fm0 j|fm0 ct rt].
  - unfold spawn_robot.
    destruct (vertices nav_graph !! v) as [[x y]|]; [|done].
    destruct Hf as [last Hk]. exists last. cbn.
    rewrite dict_get_set_ne; [done|].
    intros ->. destruct Hwf as (_ & _ & Hid). destruct (Hid _ _ Hk). lia.
  - by apply frozen_assign_task.
  - by rewrite cancel_task_state.
  - unfold update_robots. apply frozen_update_loop.
    destruct Hf as [last Hk]. by exists last.
Qed.

End Frozen.

(** X16.  A BLOCKED robot is never released: whatever calls follow, the
    robot stays in the dictionary with the same status, vertex, target, path
    and blocker; only its [last_retry_time] may change.  ([assign_task]
    refuses a robot that is not IDLE or TASK_COMPLETE, and that is the only
    way [update_robots] retries it.) *)
Theorem blocked_robot_is_never_released fm fm' k r :
  fleet_reachable nav_graph fm →
  dict_get k (robots fm) = Some r → Robot.status r = Robot.BLOCKED →
  rtc (fleet_step nav_graph) fm fm' →
  ∃ last, dict_get k (robots fm') = Some (retried last r).
Proof.
  intros Hreach Hk Hs Hrun.
  assert (frozen k r fm) as Hf.
  { exists (Robot.last_retry_time r). rewrite Hk. by destruct r. }
  clear Hk. induction Hrun as [fm|fm fm1 fm2 Hstep _ IH]; [done|].
  apply IH.
  - by apply (fleet_reachable_step _ fm).
  - apply (frozen_step k r Hs fm); [|done..].
    by apply fleet_reachable_wf.
Qed.

(** X19.  When [assign_task] returns [true], the robot has been started on
    the non-empty shortest path from its current vertex, and every vertex
    but the last and every edge of that path is reserved in the traffic
    manager for this robot with the clock reading of the call. *)
Theorem assign_task_success fm k target now :
  (assign_task nav_graph fm k target now).2 = true →
  ∃ r, dict_get k (robots fm) = Some r ∧
    let path := get_shortest_path nav_graph (Robot.current_vertex r) target in
    let fm' := (assign_task nav_graph fm k target now).1 in
    path ≠ [] ∧
    dict_get k (robots fm') =
      Some (Robot.start_task target path
              (get_vertex_position nav_graph (Robot.current_vertex r)) r) ∧
    ∀ e, e ∈ Leases.path_elems path →
         Leases.reservation (traffic_manager fm') e = Some (k, now).
Proof.
  unfold assign_task.
  destruct (dict_get k (robots fm)) as [r|] eqn:Hr; [|done].
  intros H. exists r. split; [done|]. cbv zeta.
  destruct (get_shortest_path nav_graph _ _) as [|v0 p] eqn:Hp;
    [by destruct (Robot.status r)|].
  pose proof (request_path_granted (traffic_manager fm) k now (v0 :: p))
    as Hgr.
  pose proof (request_path_result (traffic_manager fm) k now (v0 :: p))
    as Hres.
  destruct (TrafficManager.request_path _ _ _ _) as [tm [g b]].
  assert (g = true) as ->.
  { destruct (Robot.status r); try done; by destruct g. }
  assert (TrafficManager.scan (traffic_manager fm) k now (v0 :: p) = None)
    as Hscan.
  { destruct (TrafficManager.scan _ _ _ _) as [[??]|]; [|done].
    cbn in Hres. congruence. }
  destruct (Hgr Hscan) as (_ & _ & Ht). cbn [fst] in Ht.
  assert (∀ e, e ∈ Leases.path_elems (v0 :: p) →
               Leases.reservation tm e = Some (k, now)) as Hall.
  { intros e He. rewrite Ht. by rewrite bool_decide_eq_true_2. }
  destruct (Robot.status r); try done; cbn;
    (split_and!; [done|apply dict_get_set_eq|done]).
Qed.

End FleetExtras.

(** ** The additional properties on concrete inputs *)

Section Instances.

Import TrafficManager Leases.

(** Robot 1 renews its reservation of 1-2 at time 9. *)
Lemma request_path_refresh_witness :
  (request_path reserved_by_1 1 9 [1; 2]).2 = (true, None).
Proof.
  exact (proj1 (request_path_refresh TrafficManager.__init__ 1 0 9 [1; 2]
                  eq_refl)).
Defined.

(** Robot 30 asks for 1-2-3 one time unit after robot 10 reserved 1-2. *)
Lemma overlapping_request_denied_witness :
  ∃ h, (request_path held_by_10 30 1 [1; 2; 3]).2 = (false, Some h).
Proof.
  destruct (overlapping_request_denied TrafficManager.__init__ 10 30 0 1
              [1; 2] [1; 2; 3] (inl 1)) as (h & Hh & _).
  - reflexivity.
  - lia.
  - cbn [path_elems]. rewrite !elem_of_cons. auto.
  - cbn [path_elems]. rewrite !elem_of_cons. auto.
  - by vm_compute.
  - by exists h.
Defined.

(** Robot 2 asks for 1-2 six time units after robot 1 reserved it. *)
Lemma second_request_on_fresh_table_witness :
  (request_path reserved_by_1 2 6 [1; 2]).2.1 = true.
Proof.
  apply (second_request_on_fresh_table 1 2 0 6 [1; 2] [1; 2]); [lia|].
  left. by vm_compute.
Defined.

(** Robot 2 asks for 2-1 while robot 1 holds 1-2. *)
Lemma opposite_directions_not_exclusive_witness :
  (request_path reserved_by_1 2 0 [2; 1]).2 = (true, None).
Proof.
  apply (opposite_directions_not_exclusive 1 2 0 0 1 2). lia.
Defined.

(** Vertex 3 is not reserved by a grant of 1-2-3. *)
Lemma destination_vertex_not_reserved_witness :
  vertex_locks (request_path TrafficManager.__init__ 1 0 [1; 2; 3]).1 !! 3 =
  vertex_locks TrafficManager.__init__ !! 3.
Proof.
  apply destination_vertex_not_reserved; [|reflexivity].
  apply (bool_decide_unpack (NoDup [1; 2; 3])). by vm_compute.
Defined.

(** After robot 1 leaves vertex 1 of 1-2-3, vertex 2 is still its own. *)
Lemma release_drops_every_edge_of_the_path_witness :
  vertex_locks
    (release_path (request_path TrafficManager.__init__ 1 0 [1; 2; 3]).1
       1 1).1 !! 2 = Some (1, 0%Q).
Proof.
  apply (proj1 (proj2 (release_drops_every_edge_of_the_path
                         TrafficManager.__init__ 1 0 [1; 2; 3] 1 eq_refl))).
  - cbn [path_elems]. rewrite !elem_of_cons. auto.
  - lia.
Defined.

(** The queue of vertex 1 after robot 2 was denied. *)
Lemma waiting_queues_have_no_duplicates_witness :
  get_waiting_robots (tm contended) 1 = [2] ∧
  NoDup (get_waiting_robots (tm contended) 1).
Proof.
  split; [by vm_compute|].
  apply (waiting_queues_have_no_duplicates contended).
  apply reachable_step, reachable_step, reachable_init.
Defined.


End Instances.

Section FleetInstances.

Import FleetManager.

Lemma one_moving_one_blocked_reachable :
  fleet_reachable line_graph one_moving_one_blocked.
Proof.
  apply (fleet_reachable_step _ one_moving);
    [|exact (fleet_assign line_graph one_moving 2 1 0)].
  apply (fleet_reachable_step _ two_spawned);
    [|exact (fleet_assign line_graph two_spawned 1 3 0)].
  apply (fleet_reachable_step _
           (spawn_robot line_graph FleetManager.__init__ 1).1);
    [|exact (fleet_spawn line_graph _ 2)].
  apply (fleet_reachable_step _ FleetManager.__init__);
    [|exact (fleet_spawn line_graph _ 1)].
  apply fleet_reachable_init.
Qed.

Lemma robots_are_stored_under_their_ids_witness :
  NoDup (map fst (robots one_moving_one_blocked)) ∧
  1 <= next_robot_id one_moving_one_blocked.
Proof.
  destruct (robots_are_stored_under_their_ids line_graph
              one_moving_one_blocked one_moving_one_blocked_reachable)
    as (Hnd & H1 & _).
  by split.
Defined.

(** Robot 2 after one more tick. *)
Lemma blocked_robot_is_never_released_witness :
  ∃ last,
    dict_get 2
      (robots (outcome_state
                 (update_robots line_graph 1 1 one_moving_one_blocked)))
    = Some (retried last blocked_robot_2).
Proof.
  apply (blocked_robot_is_never_released line_graph one_moving_one_blocked).
  - apply one_moving_one_blocked_reachable.
  - by vm_compute.
  - reflexivity.
  - apply rtc_once. apply fleet_tick.
Defined.

Lemma spawn_robot_allocates_a_fresh_id_witness :
  dict_get 3 (robots one_moving_one_blocked) = None ∧
  next_robot_id (spawn_robot line_graph one_moving_one_blocked 3).1 = 3 + 1.
Proof.
  pose proof (spawn_robot_allocates_a_fresh_id line_graph
                one_moving_one_blocked 3 one_moving_one_blocked_reachable)
    as H.
  change (vertices line_graph !! 3) with (Some (line_position 3)) in H.
  cbv zeta in H.
  change (next_robot_id one_moving_one_blocked) with 3 in H.
  destruct H as (_ & Hfresh & _ & _ & Hnext & _). by split.
Defined.

Lemma assign_task_success_witness :
  Leases.reservation (traffic_manager one_moving) (inr (2, 3))
  = Some (1, 0%Q).
Proof.
  destruct (assign_task_success line_graph two_spawned 1 3 0 eq_refl)
    as (r & Hr & _ & _ & Hall).
  vm_compute in Hr. injection Hr as <-.
  apply Hall. apply list_elem_of_In. vm_compute. auto 10.
Defined.

End FleetInstances.
